(** * Dijkstra's shortest path algorithm (DSA/Dijkstra's Shortest Path Algorithm.cpp)

    A shallow embedding of [dijkstra_shortest_path] and [reconstruct_path]
    and the verification of their specification.

    Modelling choices, all read off the source:
    - [int] is a 32-bit two's complement integer: a [Z] in
      [INT_MIN .. INT_MAX]; the one addition of the program,
      [current_distance + weight], is [int_add], with the wrap-around
      written out (signed overflow is undefined in C++; the model gives
      the sum the value that two's complement hardware computes).
    - [Graph = map<string, map<string,int>>] is the list of its entries in
      iteration order (the order matters for the relaxation loop).
    - [Distances] and [Predecessors] are finite maps; [operator[]] on a
      missing key inserts the value-initialised element (0), which
      [map_index] writes out; [find] and [at] are the read-only accesses.
    - the priority queue is the bag of its elements; [top] is the least
      element for [operator<] on [pair<int,string>].
    - the two [while] loops are iterated by a fuel-indexed loop. The fuel
      of [dijkstra_shortest_path] always suffices ([main_loop_terminates]);
      the one of [reconstruct_path] suffices whenever the loop of the
      source ends ([reconstruct_path_running]). *)

From Stdlib Require Import ZArith List Lia.
From stdpp Require Import gmap strings list fin_maps pretty sorting.

Local Open Scope Z_scope.

(** ** Machine integers *)

Definition INT_MAX : Z := 2147483647.
Definition INT_MIN : Z := -2147483648.

(** Reduction of an unbounded integer to the 32-bit signed range. *)
Definition wrap (z : Z) : Z := (z + 2147483648) mod 4294967296 - 2147483648.

(** [a + b] on [int]. *)
Definition int_add (a b : Z) : Z := wrap (a + b).

Definition in_int (z : Z) : Prop := INT_MIN <= z <= INT_MAX.

(** ** Data model *)

(** [map<string,int>]: the neighbours of a node with the edge weights. *)
Definition Adj : Type := list (string * Z).

(** [using Graph = map<string, map<string, int>>]. *)
Definition Graph : Type := list (string * Adj).

(** [using State = pair<int, string>]. *)
Definition State : Type := (Z * string)%type.

(** [using Distances = map<string, int>], [using Predecessors = map<string, string>]. *)
Abbreviation Distances := (gmap string Z).
Abbreviation Predecessors := (gmap string string).

(** [graph.find(u)], with [graph.at(u)] when found. *)
Fixpoint graph_find (g : Graph) (u : string) : option Adj :=
  match g with
  | [] => None
  | (k, adj) :: g' => if String.eqb k u then Some adj else graph_find g' u
  end.

(** [m[k]] on a [map<string,int>]: a missing key is inserted with value 0. *)
Definition map_index (m : Distances) (k : string) : Z * Distances :=
  match m !! k with
  | Some x => (x, m)
  | None => (0, <[k := 0]> m)
  end.

(** ** The priority queue *)

(** [operator<] on [pair<int,string>]. *)
Definition state_ltb (a b : State) : bool :=
  (a.1 <? b.1) || ((a.1 =? b.1) && String.ltb a.2 b.2).

Definition state_eqb (a b : State) : bool :=
  (a.1 =? b.1) && String.eqb a.2 b.2.

(** [pq.top()] of a [priority_queue<State, vector<State>, greater<State>>]. *)
Fixpoint pq_top (q : list State) : option State :=
  match q with
  | [] => None
  | x :: q' =>
      match pq_top q' with
      | None => Some x
      | Some m => if state_ltb x m then Some x else Some m
      end
  end.

Fixpoint remove_one (x : State) (q : list State) : list State :=
  match q with
  | [] => []
  | y :: q' => if state_eqb x y then q' else y :: remove_one x q'
  end.

(** [pq.pop()]. *)
Definition pq_pop (q : list State) : list State :=
  match pq_top q with
  | None => q
  | Some m => remove_one m q
  end.

(** [pq.push(x)]. *)
Definition pq_push (x : State) (q : list State) : list State := x :: q.

(** ** dijkstra_shortest_path *)

(** The local variables of [dijkstra_shortest_path]. *)
Record Locals : Type := mkLocals {
  distances : Distances;
  predecessors : Predecessors;
  pq : list State
}.

(** Lines 36-38: every key of the graph gets the sentinel. *)
Definition init_distances (g : Graph) : Distances :=
  fold_left (fun d pair => <[pair.1 := INT_MAX]> d) g ∅.

(** Lines 35-49. *)
Definition init (g : Graph) (start_node : string) : Locals :=
  {| distances := <[start_node := 0]> (init_distances g);
     predecessors := ∅;
     pq := pq_push (0, start_node) [] |}.

(** Lines 68-82: the body of the loop over the neighbours. *)
Definition relax (current_node : string) (current_distance : Z)
    (st : Locals) (neighbor_pair : string * Z) : Locals :=
  let neighbor := neighbor_pair.1 in
  let weight := neighbor_pair.2 in
  let new_distance := int_add current_distance weight in
  let '(dn, d1) := map_index (distances st) neighbor in
  if new_distance <? dn then
    {| distances := <[neighbor := new_distance]> d1;
       predecessors := <[neighbor := current_node]> (predecessors st);
       pq := pq_push (new_distance, neighbor) (pq st) |}
  else
    {| distances := d1; predecessors := predecessors st; pq := pq st |}.

(** Lines 53-84: one iteration of the main loop (the queue is not empty). *)
Definition step (g : Graph) (st : Locals) : Locals :=
  match pq_top (pq st) with
  | None => st
  | Some (current_distance, current_node) =>
      let '(dc, d1) := map_index (distances st) current_node in
      let st1 := {| distances := d1;
                    predecessors := predecessors st;
                    pq := pq_pop (pq st) |} in
      if dc <? current_distance then st1
      else
        match graph_find g current_node with
        | None => st1
        | Some adj => fold_left (relax current_node current_distance) adj st1
        end
  end.

(** [while (!pq.empty())], for at most [2 ^ n] iterations. *)
Fixpoint main_loop (g : Graph) (n : nat) (st : Locals) : Locals :=
  match pq st with
  | [] => st
  | _ :: _ =>
      match n with
      | O => step g st
      | S n' => main_loop g n' (main_loop g n' st)
      end
  end.

(** All the neighbour names of the graph, with repetitions. *)
Definition neighbors (g : Graph) : list string :=
  flat_map (fun pair => map fst pair.2) g.

(** A number of iterations that is always enough, see [main_loop_terminates]. *)
Definition fuel (g : Graph) : nat := (34 + length (neighbors g))%nat.

(** The local variables when the main loop is left. *)
Definition final (g : Graph) (start_node : string) : Locals :=
  main_loop g (fuel g) (init g start_node).

(** Lines 33-88. *)
Definition dijkstra_shortest_path (g : Graph) (start_node : string)
    : Distances * Predecessors :=
  let st := final g start_node in
  (distances st, predecessors st).


(** ** reconstruct_path *)

(** How a call ends: it returns, it throws [std::out_of_range] (from
    [map::at]), or the loop is still running when the fuel is spent. *)
Inductive outcome (A : Type) : Type :=
  | Returns (a : A)
  | Throws
  | Running.
Arguments Returns {A} a.
Arguments Throws {A}.
Arguments Running {A}.

(** [m.at(k)] on a [map<string,string>]. *)
Definition map_at (m : Predecessors) (k : string) : outcome string :=
  match m !! k with
  | Some v => Returns v
  | None => Throws
  end.

(** Lines 99-112, for at most [n] iterations of the loop; [path] is the
    vector built so far, in push order. *)
Fixpoint reconstruct_loop (n : nat) (predecessors : Predecessors)
    (start_node current_node : string) (path : list string)
    : outcome (list string) :=
  if String.eqb current_node start_node then
    Returns (rev (path ++ [start_node]))
  else
    match n with
    | O => Running
    | S n' =>
        match predecessors !! current_node with
        | None => Returns []
        | Some _ =>
            match map_at predecessors current_node with
            | Returns p =>
                reconstruct_loop n' predecessors start_node p
                  (path ++ [current_node])
            | Throws => Throws
            | Running => Running
            end
        end
    end.

(** A walk that has not ended after as many iterations as the map has
    entries, and one more, is in a cycle: see [reconstruct_loop_enough]. *)
Definition reconstruct_path (predecessors : Predecessors)
    (start_node target_node : string) : outcome (list string) :=
  reconstruct_loop (S (size predecessors)) predecessors start_node
    target_node [].

(** ** The sample graph of [main] *)

Definition sample_graph : Graph :=
  [ ("A", [("B", 7); ("C", 9); ("F", 14)]);
    ("B", [("C", 10); ("D", 15)]);
    ("C", [("D", 11); ("F", 2)]);
    ("D", [("E", 6)]);
    ("E", [("F", 8)]);
    ("F", [("E", 9)]) ]%string.

(** ** Specification vocabulary *)

(** [u -> v] is an edge of weight [w]. *)
Definition edge (g : Graph) (u v : string) (w : Z) : Prop :=
  ∃ adj, graph_find g u = Some adj ∧ (v, w) ∈ adj.

(** [v] is a key of the outer mapping. *)
Definition is_key (g : Graph) (v : string) : Prop := is_Some (graph_find g v).

(** [path g s p v d]: [p] is the node sequence of a directed path from [s]
    to [v] and [d] is the sum, in unbounded integers, of its edge weights. *)
Inductive path (g : Graph) (s : string) : list string → string → Z → Prop :=
  | path_start : path g s [s] s 0
  | path_step p u v w d :
      path g s p u d → edge g u v w → path g s (p ++ [v]) v (d + w).

(** The same, read off the sequence alone: every two consecutive nodes of
    [p] are joined by an edge, and the weights of these edges sum to [d]. *)
Fixpoint route (g : Graph) (p : list string) (d : Z) : Prop :=
  match p with
  | [] => False
  | u :: p' =>
      match p' with
      | [] => d = 0
      | v :: _ => ∃ w, edge g u v w ∧ route g p' (d - w)
      end
  end.

Definition reachable (g : Graph) (s v : string) : Prop :=
  ∃ p d, path g s p v d.

(** [d] is the minimum, over all the paths from [s] to [v], of the sum of
    the edge weights. *)
Definition shortest (g : Graph) (s v : string) (d : Z) : Prop :=
  (∃ p, path g s p v d) ∧ ∀ p' d', path g s p' v d' → d <= d'.

Definition nonneg_weights (g : Graph) : Prop :=
  ∀ u v w, edge g u v w → 0 <= w.

(** No sum that the algorithm has to form overflows: a shortest distance
    extended by one more edge is at most [INT_MAX]. *)
Definition no_overflow (g : Graph) (s : string) : Prop :=
  ∀ u v w d, shortest g s u d → edge g u v w → d + w <= INT_MAX.

(** No such sum reaches the sentinel either. *)
Definition below_sentinel (g : Graph) (s : string) : Prop :=
  ∀ u v w d, shortest g s u d → edge g u v w → d + w < INT_MAX.

(** The weights are non-negative, decided on the entries. *)
Definition nonneg_weightsb (g : Graph) : bool :=
  forallb (fun pair : string * Adj => forallb (fun e : string * Z => 0 <=? e.2) pair.2) g.

(** The sum of the weights of the entries of a node, and of the graph. *)
Definition adj_weight (adj : Adj) : Z :=
  fold_right (fun e acc => e.2 + acc) 0 adj.

Definition total_weight (g : Graph) : Z :=
  fold_right (fun pair acc => adj_weight pair.2 + acc) 0 g.

(** What the edges that leave [x] weigh together. *)
Definition out_weight (g : Graph) (x : string) : Z :=
  match graph_find g x with
  | Some adj => adj_weight adj
  | None => 0
  end.

Fixpoint sum_out (g : Graph) (l : list string) : Z :=
  match l with
  | [] => 0
  | x :: l' => out_weight g x + sum_out g l'
  end.

(** A condition that is decided on the entries: the weights are
    non-negative and sum to less than [INT_MAX]. *)
Definition small_weights (g : Graph) : bool :=
  nonneg_weightsb g && (total_weight g <? INT_MAX).

(** ** Termination measure of the main loop *)

(** What [distances[v]] would read. *)
Definition value (d : Distances) (v : string) : Z := default 0 (d !! v).

Fixpoint potential (V : list string) (d : Distances) : Z :=
  match V with
  | [] => 0
  | v :: V' => (value d v - INT_MIN) + potential V' d
  end.

Definition measure (g : Graph) (st : Locals) : Z :=
  2 * potential (neighbors g) (distances st) + Z.of_nat (length (pq st)).

Definition dist_in_int (d : Distances) : Prop :=
  ∀ v x, d !! v = Some x → in_int x.

(** ** Invariants *)

(** The invariant of the main loop.

    [inv g s u du todo st] holds between two relaxations of the loop over
    the neighbours of [u], popped at distance [du], when the edges [todo]
    of [u] are still to be relaxed; with [todo = []] it is the invariant
    of the [while] loop. *)
Record inv (g : Graph) (s u : string) (du : Z) (todo : Adj) (st : Locals)
    : Prop := mk_inv {
  inv_start : distances st !! s = Some 0;
  inv_range : ∀ v d, distances st !! v = Some d → 0 <= d <= INT_MAX;
  inv_keys : ∀ v, is_key g v → is_Some (distances st !! v);
  inv_pq : ∀ d v, (d, v) ∈ pq st →
    (∃ p, path g s p v d) ∧ ∃ d', distances st !! v = Some d' ∧ d' <= d;
  inv_relaxed : ∀ x dx, distances st !! x = Some dx → dx < INT_MAX →
    (dx, x) ∈ pq st ∨
    ∀ v w, edge g x v w →
      (x = u ∧ dx = du ∧ (v, w) ∈ todo) ∨
      ∃ dv, distances st !! v = Some dv ∧ dv <= dx + w;
  inv_pred : ∀ v x, predecessors st !! v = Some x →
    v ≠ s ∧ ∃ dx dv w, edge g x v w ∧ distances st !! x = Some dx ∧
      distances st !! v = Some dv ∧ dx + w <= dv ∧ dv < INT_MAX ∧
      ∃ p, path g s p v dv;
  inv_has_pred : ∀ v d, distances st !! v = Some d → d < INT_MAX →
    is_key g v → v ≠ s → is_Some (predecessors st !! v);
  inv_rank : ∃ rank : string → nat, ∀ v x dx dv,
    predecessors st !! v = Some x →
    distances st !! x = Some dx → distances st !! v = Some dv →
    dx < dv ∨ (dx = dv ∧ (rank x < rank v)%nat)
}.

(** What the main loop keeps for the nodes that the start node does not
    reach. *)
Record reach_inv (g : Graph) (s : string) (st : Locals) : Prop := mk_reach_inv {
  ri_pq : ∀ d v, (d, v) ∈ pq st → reachable g s v;
  ri_pred : ∀ v x, predecessors st !! v = Some x → reachable g s v;
  ri_keys : ∀ v, is_key g v → ¬ reachable g s v →
    distances st !! v = Some INT_MAX
}.

(** ** The backward walk of reconstruct_path *)

(** [ends predecessors start k c]: the loop started at [c] leaves after
    exactly [k] tests of its body, at the start node or at a node without
    entry. *)
Inductive ends (predecessors : Predecessors) (start_node : string)
    : nat → string → Prop :=
  | ends_start : ends predecessors start_node 0 start_node
  | ends_dead c :
      c ≠ start_node → predecessors !! c = None →
      ends predecessors start_node 1 c
  | ends_step k c x :
      c ≠ start_node → predecessors !! c = Some x →
      ends predecessors start_node k x →
      ends predecessors start_node (S k) c.

(** The walk from [c] reaches, before the start node, a node that has no
    predecessor entry. *)
Inductive dead_end (predecessors : Predecessors) (start_node : string)
    : string → Prop :=
  | dead_here c :
      c ≠ start_node → predecessors !! c = None →
      dead_end predecessors start_node c
  | dead_next c x :
      c ≠ start_node → predecessors !! c = Some x →
      dead_end predecessors start_node x →
      dead_end predecessors start_node c.

(** ** Concrete graphs *)

(** A node that is reachable only at a distance beyond [INT_MAX]. *)
Definition graph_sentinel : Graph :=
  [ ("A", [("B", 2147483647)]); ("B", [("C", 1)]); ("C", []) ]%string.

(** An edge whose weight is the sentinel itself. *)
Definition graph_sentinel_edge : Graph :=
  [ ("A", [("B", 2147483647)]); ("B", []) ]%string.

(** A cycle through the start node whose weight wraps. *)
Definition graph_wrap_cycle : Graph :=
  [ ("A", [("B", 2147483646)]); ("B", [("A", 2)]) ]%string.

(** A chain whose weight wraps. *)
Definition graph_wrap_chain : Graph :=
  [ ("A", [("B", 2147483646)]); ("B", [("C", 2)]); ("C", []) ]%string.

(** [C] appears only as a neighbour, of a node that [A] does not reach. *)
Definition graph_sink : Graph :=
  [ ("A", []); ("B", [("C", 1)]) ]%string.

(** [B] appears only as a neighbour, of the start node. *)
Definition graph_neighbor_only : Graph :=
  [ ("A", [("B", 5)]) ]%string.

(** A cycle of weight 0 through the start node. *)
Definition graph_zero_cycle : Graph :=
  [ ("A", [("B", 0)]); ("B", [("A", 0); ("C", 3)]); ("C", [("B", 0)]) ]%string.

(** A predecessor map whose walk from [B] stops at [C], which has no entry. *)
Definition broken_chain : Predecessors := {[ "B" := "C" ]}%string.

(** A predecessor map in which the start node [S] has an entry itself. *)
Definition chain_through_start : Predecessors :=
  {[ "T" := "S"; "S" := "Y" ]}%string.

(** ** main *)

(** The order in which a [std::map] with string keys is iterated. *)
Definition key_le {A : Type} (a b : string * A) : Prop :=
  String.leb a.1 b.1 = true.

(** The entries of a [std::map], in iteration order. *)
Definition entries {A : Type} (m : gmap string A) : list (string * A) :=
  @merge_sort _ key_le (fun a b => decide (String.leb a.1 b.1 = true))
    (map_to_list m).

(** [m.at(k)] on a [map<string,int>]. *)
Definition distances_at (m : Distances) (k : string) : outcome Z :=
  match m !! k with
  | Some v => Returns v
  | None => Throws
  end.

(** Lines 141-146: the line printed for one entry of the distance map. *)
Definition distance_line (pair : string * Z) : string :=
  "  Node " +:+ pair.1 +:+ ": " +:+
  (if pair.2 =? INT_MAX then "Unreachable" else pretty pair.2).

(** Lines 156-161: the nodes separated by arrows. *)
Fixpoint join_arrows (shortest_path : list string) : string :=
  match shortest_path with
  | [] => ""
  | x :: rest =>
      match rest with
      | [] => x
      | _ :: _ => x +:+ " -> " +:+ join_arrows rest
      end
  end.

(** Lines 131-167, with the three local constants of [main] as parameters:
    the lines written to [cout] and how the call ends ([Returns 0] is
    [return 0]). *)
Definition main_with (graph : Graph) (START TARGET : string)
    : list string * outcome Z :=
  let out0 :=
    ["--- Running Dijkstra's Algorithm from Node " +:+ START +:+ " ---"] in
  let results := dijkstra_shortest_path graph START in
  let shortest_distances := results.1 in
  let path_predecessors := results.2 in
  let out1 :=
    out0 ++ [""; "Shortest Distances from " +:+ START +:+ ":"] ++
    (distance_line <$> entries shortest_distances) in
  match reconstruct_path path_predecessors START TARGET with
  | Running => (out1, Running)
  | Throws => (out1, Throws)
  | Returns shortest_path =>
      match shortest_path with
      | [] =>
          (out1 ++ [""; "Node " +:+ TARGET +:+ " is unreachable from " +:+
                        START +:+ "."],
           Returns 0)
      | _ :: _ =>
          match distances_at shortest_distances TARGET with
          | Returns distance_to_target =>
              (out1 ++ [""; "Shortest Path to " +:+ TARGET +:+ " (Distance: " +:+
                            pretty distance_to_target +:+ "):";
                        join_arrows shortest_path],
               Returns 0)
          | Throws => (out1, Throws)
          | Running => (out1, Running)
          end
      end
  end.

(** Lines 117-168. *)
Definition main : list string * outcome Z := main_with sample_graph "A" "D".

(** ** More invariants of the main loop *)

(** What the main loop keeps on every graph, whatever the weights: which
    nodes have entries, and what a predecessor entry is. *)
Record shape_inv (g : Graph) (s : string) (st : Locals) : Prop := mk_shape_inv {
  sh_start : is_Some (distances st !! s);
  sh_keys : ∀ k, is_key g k → is_Some (distances st !! k);
  sh_dom : ∀ v, is_Some (distances st !! v) → is_key g v ∨ reachable g s v;
  sh_pq : ∀ d v, (d, v) ∈ pq st → reachable g s v;
  sh_pred : ∀ v x, predecessors st !! v = Some x →
    (∃ w, edge g x v w) ∧ reachable g s x ∧ reachable g s v ∧
    is_Some (distances st !! x) ∧ is_Some (distances st !! v)
}.

(** What it keeps for the nodes that are no keys, as long as no relaxation
    computes a negative distance. *)
Record sink_inv (g : Graph) (s : string) (st : Locals) : Prop := mk_sink_inv {
  sk_start : distances st !! s = Some 0;
  sk_zero : ∀ v d, distances st !! v = Some d → ¬ is_key g v → v ≠ s → d = 0;
  sk_pred : ∀ v x, predecessors st !! v = Some x → is_key g v ∧ v ≠ s
}.

(** [follows predecessors start p c]: [p] leads from the start node to [c],
    each node being the recorded predecessor of the next. *)
Inductive follows (predecessors : Predecessors) (start_node : string)
    : list string → string → Prop :=
  | follows_start : follows predecessors start_node [start_node] start_node
  | follows_step p x c :
      follows predecessors start_node p x →
      c ≠ start_node → predecessors !! c = Some x →
      follows predecessors start_node (p ++ [c]) c.

(** ** Basic facts *)

Lemma wrap_in_int z : in_int (wrap z).
Proof.
  unfold in_int, wrap, INT_MIN, INT_MAX.
  pose proof (Z.mod_pos_bound (z + 2147483648) 4294967296). lia.
Qed.

Lemma wrap_small z : in_int z → wrap z = z.
Proof.
  unfold in_int, wrap, INT_MIN, INT_MAX. intros H.
  rewrite Z.mod_small; lia.
Qed.

Lemma state_eqb_eq a b : state_eqb a b = true ↔ a = b.
Proof.
  destruct a as [d u], b as [d' u']. unfold state_eqb. simpl.
  rewrite andb_true_iff, Z.eqb_eq, String.eqb_eq. split.
  - intros [-> ->]. reflexivity.
  - intros [= -> ->]. done.
Qed.

Lemma state_ltb_le a b : state_ltb a b = true → a.1 <= b.1.
Proof.
  unfold state_ltb. rewrite orb_true_iff, andb_true_iff, Z.ltb_lt, Z.eqb_eq. lia.
Qed.

Lemma state_ltb_ge a b : state_ltb a b = false → b.1 <= a.1.
Proof.
  unfold state_ltb. rewrite orb_false_iff, Z.ltb_ge. lia.
Qed.

Lemma pq_top_None q : pq_top q = None → q = [].
Proof.
  destruct q as [|x q]; [done|]. simpl.
  destruct (pq_top q); [destruct (state_ltb x s)|]; done.
Qed.

Lemma pq_top_elem q m : pq_top q = Some m → m ∈ q.
Proof.
  revert m. induction q as [|x q IH]; intros m; simpl; [done|].
  destruct (pq_top q) as [m'|].
  - destruct (state_ltb x m'); intros [= <-].
    + apply list_elem_of_here.
    + apply list_elem_of_further, IH. reflexivity.
  - intros [= <-]. apply list_elem_of_here.
Qed.

Lemma pq_top_least q m : pq_top q = Some m → ∀ y, y ∈ q → m.1 <= y.1.
Proof.
  revert m. induction q as [|x q IH]; intros m; simpl; [done|].
  destruct (pq_top q) as [m'|] eqn:Htop.
  - destruct (state_ltb x m') eqn:Hlt; intros [= <-] y Hy;
      apply elem_of_cons in Hy as [->|Hy].
    + lia.
    + apply state_ltb_le in Hlt. specialize (IH m' eq_refl y Hy). lia.
    + by apply state_ltb_ge.
    + by apply IH.
  - apply pq_top_None in Htop as ->. intros [= <-] y Hy.
    apply elem_of_cons in Hy as [->|Hy]; [lia|]. by apply elem_of_nil in Hy.
Qed.

Lemma remove_one_elem x q y : y ∈ remove_one x q → y ∈ q.
Proof.
  induction q as [|z q IH]; simpl; [done|].
  destruct (state_eqb x z).
  - apply list_elem_of_further.
  - intros [->|H]%elem_of_cons; [apply list_elem_of_here|].
    apply list_elem_of_further, IH, H.
Qed.

Lemma remove_one_other x q y : y ∈ q → y ≠ x → y ∈ remove_one x q.
Proof.
  intros Hy Hne. induction q as [|z q IH]; simpl; [done|].
  destruct (state_eqb x z) eqn:E.
  - apply state_eqb_eq in E as <-.
    apply elem_of_cons in Hy as [->|Hy]; done.
  - apply elem_of_cons in Hy as [->|Hy]; [apply list_elem_of_here|].
    apply list_elem_of_further, IH, Hy.
Qed.

Lemma remove_one_length x q :
  x ∈ q → (length (remove_one x q) + 1 = length q)%nat.
Proof.
  induction q as [|z q IH]; simpl; intros Hx; [by apply elem_of_nil in Hx|].
  destruct (state_eqb x z) eqn:E; [lia|].
  apply elem_of_cons in Hx as [->|Hx].
  - assert (state_eqb z z = true) by (by apply state_eqb_eq). congruence.
  - simpl. rewrite <- (IH Hx). lia.
Qed.

Lemma pq_pop_elem q y : y ∈ pq_pop q → y ∈ q.
Proof.
  unfold pq_pop. destruct (pq_top q); [apply remove_one_elem|done].
Qed.

Lemma pq_pop_other q m y : pq_top q = Some m → y ∈ q → y ≠ m → y ∈ pq_pop q.
Proof.
  unfold pq_pop. intros ->. apply remove_one_other.
Qed.

Lemma pq_pop_length q m :
  pq_top q = Some m → (length (pq_pop q) + 1 = length q)%nat.
Proof.
  unfold pq_pop. intros H. rewrite H.
  apply remove_one_length, pq_top_elem, H.
Qed.

Lemma graph_find_elem g u adj : graph_find g u = Some adj → (u, adj) ∈ g.
Proof.
  induction g as [|[k a] g IH]; simpl; [done|].
  destruct (String.eqb k u) eqn:E.
  - apply String.eqb_eq in E as ->. intros [= ->]. apply list_elem_of_here.
  - intros H. apply list_elem_of_further, IH, H.
Qed.

Lemma graph_find_key g u adj : (u, adj) ∈ g → is_key g u.
Proof.
  unfold is_key. induction g as [|[k a] g IH]; simpl.
  - intros H. by apply elem_of_nil in H.
  - intros H. destruct (String.eqb k u) eqn:E; [by eexists|].
    apply elem_of_cons in H as [[= -> ->]|H]; [|by apply IH].
    rewrite String.eqb_refl in E. done.
Qed.

Lemma edge_neighbor g u v w : edge g u v w → v ∈ neighbors g.
Proof.
  intros (adj & Hf & Hin). apply graph_find_elem in Hf.
  unfold neighbors. apply list_elem_of_In, in_flat_map.
  exists (u, adj). split; [by apply list_elem_of_In|].
  simpl. apply in_map_iff. exists (v, w). split; [done|by apply list_elem_of_In].
Qed.

Lemma edge_is_key g u v w : edge g u v w → is_key g u.
Proof. intros (adj & Hf & _). unfold is_key. by eexists. Qed.

Lemma nonneg_weightsb_sound g : nonneg_weightsb g = true → nonneg_weights g.
Proof.
  unfold nonneg_weightsb. rewrite forallb_forall.
  intros H u v w (adj & Hf & Hin).
  apply graph_find_elem, list_elem_of_In, H in Hf. simpl in Hf.
  rewrite forallb_forall in Hf.
  apply list_elem_of_In, Hf in Hin. simpl in Hin. lia.
Qed.

(** ** Termination of the main loop

    Every relaxation strictly lowers one recorded distance, and recorded
    distances are [int]s: twice the potential plus the queue length drops
    at every iteration. *)

Lemma value_in_int d v : dist_in_int d → in_int (value d v).
Proof.
  intros H. unfold value. destruct (d !! v) eqn:E; simpl.
  - by eapply H.
  - unfold in_int, INT_MIN, INT_MAX. lia.
Qed.

Lemma potential_bounds V d :
  dist_in_int d → 0 <= potential V d <= 4294967296 * Z.of_nat (length V).
Proof.
  intros H. induction V as [|v V IH]; simpl potential; simpl length; [lia|].
  pose proof (value_in_int d v H) as Hv.
  unfold in_int, INT_MIN, INT_MAX in *. lia.
Qed.

Lemma potential_mono V d d' :
  (∀ v, value d' v <= value d v) → potential V d' <= potential V d.
Proof.
  intros H. induction V as [|v V IH]; simpl; [lia|]. specialize (H v). lia.
Qed.

Lemma potential_decr V d d' v0 :
  (∀ v, value d' v <= value d v) → v0 ∈ V → value d' v0 < value d v0 →
  potential V d' < potential V d.
Proof.
  intros H Hin Hlt. induction V as [|v V IH]; simpl; [by apply elem_of_nil in Hin|].
  apply elem_of_cons in Hin as [<-|Hin].
  - pose proof (potential_mono V d d' H). lia.
  - specialize (IH Hin). specialize (H v). lia.
Qed.

Lemma map_index_value d k : (map_index d k).1 = value d k.
Proof. unfold map_index, value. by destruct (d !! k). Qed.

Lemma map_index_lookup d k : (map_index d k).2 !! k = Some (value d k).
Proof.
  unfold map_index, value. destruct (d !! k) eqn:E; simpl; [done|].
  apply lookup_insert_eq.
Qed.

Lemma map_index_lookup_ne d k v : v ≠ k → (map_index d k).2 !! v = d !! v.
Proof.
  intros Hne. unfold map_index. destruct (d !! k); simpl; [done|].
  by apply lookup_insert_ne.
Qed.

Lemma map_index_Some d k x : d !! k = Some x → map_index d k = (x, d).
Proof. unfold map_index. by intros ->. Qed.

Lemma map_index_same_value d k v : value (map_index d k).2 v = value d v.
Proof.
  unfold value. destruct (decide (v = k)) as [->|Hne].
  - rewrite map_index_lookup. unfold value. by destruct (d !! k).
  - by rewrite map_index_lookup_ne.
Qed.

Lemma map_index_in_int d k : dist_in_int d → dist_in_int (map_index d k).2.
Proof.
  intros H v x. destruct (decide (v = k)) as [->|Hne].
  - rewrite map_index_lookup. intros [= <-]. by apply value_in_int.
  - rewrite map_index_lookup_ne by done. apply H.
Qed.

Lemma dist_in_int_insert d k x :
  dist_in_int d → in_int x → dist_in_int (<[k := x]> d).
Proof.
  intros H Hx v y. destruct (decide (v = k)) as [->|Hne].
  - rewrite lookup_insert_eq. by intros [= <-].
  - rewrite lookup_insert_ne by done. apply H.
Qed.

Lemma value_insert d k x v :
  value (<[k := x]> d) v = if decide (v = k) then x else value d v.
Proof.
  unfold value. case_decide as E.
  - subst. by rewrite lookup_insert_eq.
  - by rewrite lookup_insert_ne.
Qed.

Lemma relax_measure g u du st e :
  e.1 ∈ neighbors g → dist_in_int (distances st) →
  dist_in_int (distances (relax u du st e)) ∧
  measure g (relax u du st e) <= measure g st.
Proof.
  intros Hin Hint. unfold relax.
  pose proof (map_index_value (distances st) e.1) as Hv.
  pose proof (map_index_same_value (distances st) e.1) as Hsame.
  pose proof (map_index_in_int (distances st) e.1 Hint) as Hint1.
  destruct (map_index (distances st) e.1) as [dn d1]. simpl in *. subst dn.
  destruct (int_add du e.2 <? value (distances st) e.1) eqn:Hlt.
  - apply Z.ltb_lt in Hlt. split.
    + simpl. apply dist_in_int_insert; [done|apply wrap_in_int].
    + unfold measure, pq_push. simpl distances. simpl pq.
      assert (potential (neighbors g) (<[e.1 := int_add du e.2]> d1)
              < potential (neighbors g) (distances st)); [|simpl length; lia].
      apply potential_decr with (v0 := e.1); [|done|].
      * intros v. rewrite value_insert. case_decide; subst; rewrite ?Hsame; lia.
      * rewrite value_insert. rewrite decide_True by done. done.
  - split; [done|]. unfold measure. simpl.
    pose proof (potential_mono (neighbors g) (distances st) d1).
    assert (potential (neighbors g) d1 <= potential (neighbors g) (distances st)); [|lia].
    apply potential_mono. intros v. rewrite Hsame. lia.
Qed.

Lemma fold_relax_measure g u du adj st :
  (∀ e, e ∈ adj → e.1 ∈ neighbors g) → dist_in_int (distances st) →
  dist_in_int (distances (fold_left (relax u du) adj st)) ∧
  measure g (fold_left (relax u du) adj st) <= measure g st.
Proof.
  revert st. induction adj as [|e adj IH]; intros st Hin Hint; simpl; [split; [done|lia]|].
  destruct (relax_measure g u du st e) as [H1 H2]; [apply Hin; left|done|].
  destruct (IH (relax u du st e)) as [H3 H4]; [intros; apply Hin; by right|done|].
  split; [done|lia].
Qed.

Lemma step_measure g st :
  pq st ≠ [] → dist_in_int (distances st) →
  dist_in_int (distances (step g st)) ∧ measure g (step g st) < measure g st.
Proof.
  intros Hne Hint. unfold step.
  destruct (pq_top (pq st)) as [[du u]|] eqn:Htop; [|by apply pq_top_None in Htop].
  pose proof (pq_pop_length _ _ Htop) as Hlen.
  pose proof (map_index_same_value (distances st) u) as Hsame.
  pose proof (map_index_in_int (distances st) u Hint) as Hint1.
  destruct (map_index (distances st) u) as [dc d1]. simpl in *.
  assert (Hpot : potential (neighbors g) d1 <= potential (neighbors g) (distances st)).
  { apply potential_mono. intros v. rewrite Hsame. lia. }
  set (st1 := {| distances := d1; predecessors := predecessors st; pq := pq_pop (pq st) |}).
  assert (H1 : dist_in_int (distances st1) ∧ measure g st1 < measure g st).
  { split; [done|]. unfold measure. simpl. lia. }
  destruct (dc <? du); [done|].
  destruct (graph_find g u) as [adj|] eqn:Hf; [|done].
  destruct (fold_relax_measure g u du adj st1) as [H2 H3].
  - intros [v w] Hin. simpl. apply (edge_neighbor g u v w). by exists adj.
  - apply H1.
  - split; [done|]. destruct H1. lia.
Qed.

Lemma main_loop_done g n st : pq st = [] → main_loop g n st = st.
Proof. intros H. destruct n; simpl; by rewrite H. Qed.

Lemma main_loop_measure g n st :
  dist_in_int (distances st) →
  dist_in_int (distances (main_loop g n st)) ∧
  (pq (main_loop g n st) = [] ∨
   measure g (main_loop g n st) + 2 ^ Z.of_nat n <= measure g st).
Proof.
  revert st. induction n as [|n IH]; intros st Hint.
  - simpl. destruct (pq st) as [|x q] eqn:Hq; [auto|].
    destruct (step_measure g st) as [H1 H2]; [congruence|done|].
    split; [done|]. right. change (2 ^ Z.of_nat 0) with 1. lia.
  - simpl main_loop. destruct (pq st) as [|x q] eqn:Hq; [auto|].
    destruct (IH st Hint) as [H1 H2].
    destruct (IH (main_loop g n st) H1) as [H3 H4].
    split; [done|]. destruct H4 as [H4|H4]; [by left|].
    destruct H2 as [H2|H2].
    + left. by rewrite main_loop_done.
    + right. rewrite Nat2Z.inj_succ, Z.pow_succ_r by lia. lia.
Qed.

Lemma measure_nonneg g st : dist_in_int (distances st) → 0 <= measure g st.
Proof.
  intros H. unfold measure.
  pose proof (potential_bounds (neighbors g) _ H). lia.
Qed.

Lemma pow2_gt (n : nat) : Z.of_nat n + 1 <= 2 ^ Z.of_nat n.
Proof.
  induction n as [|n IH]; [simpl; lia|].
  rewrite Nat2Z.inj_succ, Z.pow_succ_r by lia. lia.
Qed.

Lemma init_distances_lookup g v x :
  init_distances g !! v = Some x → x = INT_MAX.
Proof.
  unfold init_distances.
  assert (H : ∀ d : Distances, (∀ y, d !! v = Some y → y = INT_MAX) →
    fold_left (fun d pair => <[pair.1 := INT_MAX]> d) g d !! v = Some x → x = INT_MAX).
  { induction g as [|[k a] g IH]; intros d Hd; simpl; [apply Hd|].
    apply IH. intros y. simpl. destruct (decide (v = k)) as [->|Hne].
    - rewrite lookup_insert_eq. by intros [= <-].
    - rewrite lookup_insert_ne by done. apply Hd. }
  apply H. intros y. by rewrite lookup_empty.
Qed.

Lemma init_distances_keys g v :
  is_key g v → init_distances g !! v = Some INT_MAX.
Proof.
  unfold init_distances, is_key.
  assert (H : ∀ d : Distances, is_Some (graph_find g v) ∨ d !! v = Some INT_MAX →
    fold_left (fun d pair => <[pair.1 := INT_MAX]> d) g d !! v = Some INT_MAX).
  { induction g as [|[k a] g IH]; intros d Hd; simpl.
    - destruct Hd as [[? Hd]|Hd]; done.
    - apply IH. simpl in Hd. destruct (String.eqb k v) eqn:E.
      + apply String.eqb_eq in E as ->. right. apply lookup_insert_eq.
      + destruct Hd as [Hd|Hd]; [by left|]. right.
        apply String.eqb_neq in E. by rewrite lookup_insert_ne. }
  intros Hk. apply H. by left.
Qed.

Lemma init_in_int g s : dist_in_int (distances (init g s)).
Proof.
  simpl. apply dist_in_int_insert.
  - intros v x Hx. apply init_distances_lookup in Hx as ->.
    unfold in_int, INT_MIN, INT_MAX. lia.
  - unfold in_int, INT_MIN, INT_MAX. lia.
Qed.

(** The main loop has ended when [dijkstra_shortest_path] returns: the
    queue is empty. This holds for every graph and every start node. *)
Lemma main_loop_terminates g s :
  pq (main_loop g (fuel g) (init g s)) = [].
Proof.
  pose proof (init_in_int g s) as Hint.
  destruct (main_loop_measure g (fuel g) (init g s) Hint) as [H1 [H2|H2]]; [done|].
  exfalso. pose proof (measure_nonneg g _ H1) as H0.
  assert (measure g (init g s) < 2 ^ Z.of_nat (fuel g)); [|lia].
  unfold measure. pose proof (potential_bounds (neighbors g) _ Hint) as Hb.
  simpl pq. simpl length. unfold fuel.
  rewrite Nat2Z.inj_add, Z.pow_add_r by lia.
  pose proof (pow2_gt (length (neighbors g))).
  change (2 ^ Z.of_nat 34) with 17179869184. lia.
Qed.

(** ** The invariant of the main loop is kept *)

Lemma path_nonneg g s p v d : nonneg_weights g → path g s p v d → 0 <= d.
Proof.
  intros Hnn H. induction H as [|p u v w d _ IH He]; [lia|].
  apply Hnn in He. lia.
Qed.

Lemma main_loop_invariant (P : Locals → Prop) g :
  (∀ st, P st → pq st ≠ [] → P (step g st)) →
  ∀ n st, P st → P (main_loop g n st).
Proof.
  intros Hstep n. induction n as [|n IH]; intros st HP; simpl.
  - destruct (pq st) eqn:Hq; [done|]. apply Hstep; [done|congruence].
  - destruct (pq st) eqn:Hq; [done|]. by apply IH, IH.
Qed.

Arguments main_loop : simpl never.
Arguments final : simpl never.
Arguments dijkstra_shortest_path : simpl never.

Section Invariant.
Variable g : Graph.
Variable s : string.
Hypothesis Hnn : nonneg_weights g.
Hypothesis Hov : no_overflow g s.

(** A path to [v] gives a bound on the distance of [v], or on an entry
    of the queue. *)
Lemma lower_bound u du st p v W :
  inv g s u du [] st → path g s p v W →
  INT_MAX <= W ∨
  (∃ dv, distances st !! v = Some dv ∧ dv <= W) ∨
  (∃ dy y, (dy, y) ∈ pq st ∧ dy <= W).
Proof.
  intros Hinv Hp. induction Hp as [|p x v w Wx Hp IH He].
  - right; left. exists 0. split; [apply Hinv|lia].
  - pose proof (Hnn _ _ _ He) as Hw.
    destruct IH as [IH|[(dx & Hdx & Hle)|(dy & y & Hy & Hle)]].
    + left. lia.
    + destruct (Z_lt_le_dec (Wx + w) INT_MAX) as [Hlt|Hge]; [|by left].
      right. destruct (inv_relaxed _ _ _ _ _ _ Hinv x dx Hdx) as [Hq|Hr]; [lia| |].
      * right. exists dx, x. split; [done|lia].
      * destruct (Hr v w He) as [(_ & _ & Hin)|(dv & Hdv & Hle')].
        -- by apply elem_of_nil in Hin.
        -- left. exists dv. split; [done|lia].
    + right; right. exists dy, y. split; [done|lia].
Qed.

(** The greedy step: the entry on top of the queue, when it is not
    stale, carries the shortest distance of its node. *)
Lemma top_shortest u0 d0 st d u dc :
  inv g s u0 d0 [] st → pq_top (pq st) = Some (d, u) →
  distances st !! u = Some dc → d <= dc → shortest g s u d.
Proof.
  intros Hinv Htop Hdc Hle.
  destruct (inv_pq _ _ _ _ _ _ Hinv d u (pq_top_elem _ _ Htop))
    as [Hp (d' & Hd' & Hle')].
  split; [done|]. intros p' W Hp'.
  assert (d' = dc) as -> by congruence.
  pose proof (inv_range _ _ _ _ _ _ Hinv u dc Hdc) as Hr.
  destruct (lower_bound _ _ _ _ _ _ Hinv Hp')
    as [H|[(dv & Hdv & H)|(dy & y & Hy & H)]].
  - lia.
  - assert (dv = dc) by congruence. lia.
  - pose proof (pq_top_least _ _ Htop _ Hy) as Hmin. simpl in Hmin. lia.
Qed.

(** Popping the top entry. *)
Lemma inv_pop u0 d0 st d u dc todo :
  inv g s u0 d0 [] st → pq_top (pq st) = Some (d, u) →
  distances st !! u = Some dc →
  (dc = d → ∀ v w, edge g u v w → (v, w) ∈ todo) →
  inv g s u d todo
    {| distances := distances st; predecessors := predecessors st;
       pq := pq_pop (pq st) |}.
Proof.
  intros Hinv Htop Hdc Htodo. destruct Hinv as [H1 H2 H3 H4 H5 H6 H7 H8].
  constructor; simpl; try done.
  - intros d' v Hin. apply H4. by apply pq_pop_elem.
  - intros x dx Hdx Hlt. destruct (H5 x dx Hdx Hlt) as [Hq|Hr].
    + destruct (decide ((dx, x) = (d, u))) as [[= -> ->]|Hne].
      * right. intros v w He. left.
        assert (dc = d) by congruence. auto.
      * left. by eapply pq_pop_other.
    + right. intros v w He. destruct (Hr v w He) as [(_ & _ & Hin)|Hr'].
      * by apply elem_of_nil in Hin.
      * by right.
Qed.

Section Relax.
Variables (u : string) (du : Z).
Hypothesis Hsh : shortest g s u du.

Lemma relax_no_wrap v w :
  edge g u v w → 0 <= du ∧ 0 <= w ∧ du + w <= INT_MAX ∧ int_add du w = du + w.
Proof.
  intros He. pose proof (Hnn _ _ _ He) as Hw.
  pose proof (Hov _ _ _ _ Hsh He) as Hlt.
  destruct Hsh as [[p Hp] _]. pose proof (path_nonneg _ _ _ _ _ Hnn Hp).
  repeat split; try done. unfold int_add. apply wrap_small.
  unfold in_int, INT_MIN, INT_MAX in *. lia.
Qed.

(** [distances[neighbor]] created the entry: nothing else changes. *)
Lemma inv_insert_zero v w todo st :
  inv g s u du ((v, w) :: todo) st → edge g u v w →
  distances st !! v = None →
  inv g s u du todo
    {| distances := <[v := 0]> (distances st);
       predecessors := predecessors st; pq := pq st |}.
Proof.
  intros [H1 H2 H3 H4 H5 H6 H7 H8] He Hv.
  destruct (relax_no_wrap v w He) as (Hdu & Hw & Hlt & _).
  assert (Hvs : v ≠ s) by (intros ->; congruence).
  assert (Hnk : ¬ is_key g v).
  { intros Hk. apply H3 in Hk as [? Hk]. congruence. }
  assert (Hother : ∀ y z, distances st !! y = Some z →
            <[v := 0]> (distances st) !! y = Some z).
  { intros y z Hy. rewrite lookup_insert_ne; [done|]. intros ->. congruence. }
  constructor; simpl.
  - by apply Hother.
  - intros y d. destruct (decide (y = v)) as [->|Hne].
    + rewrite lookup_insert_eq. intros [= <-]. unfold INT_MAX. lia.
    + rewrite lookup_insert_ne by done. apply H2.
  - intros y Hk. destruct (H3 y Hk) as [z Hz]. exists z. by apply Hother.
  - intros d y Hin. destruct (H4 d y Hin) as [Hp (d' & Hd' & Hle)].
    split; [done|]. exists d'. split; [by apply Hother|done].
  - intros x dx. destruct (decide (x = v)) as [->|Hne].
    + intros _ _. right. intros v' w' He'. apply edge_is_key in He'. done.
    + rewrite lookup_insert_ne by done. intros Hdx Hlt'.
      destruct (H5 x dx Hdx Hlt') as [Hq|Hr]; [by left|]. right.
      intros v' w' He'. destruct (Hr v' w' He') as [(-> & -> & Hin)|(dv & Hdv & Hle)].
      * apply elem_of_cons in Hin as [[= -> ->]|Hin]; [|by left].
        right. exists 0. rewrite lookup_insert_eq. split; [done|lia].
      * right. exists dv. split; [by apply Hother|done].
  - intros y x Hyx. destruct (H6 y x Hyx) as [Hys (dx & dy & w' & He' & Hdx & Hdy & Hrest)].
    split; [done|]. exists dx, dy, w'. repeat split; try tauto; by apply Hother.
  - intros y d. destruct (decide (y = v)) as [->|Hne]; [done|].
    rewrite lookup_insert_ne by done. apply H7.
  - destruct H8 as [rank H8]. exists rank. intros y x dx dy Hyx Hdx Hdy.
    destruct (H6 y x Hyx) as [_ (dx' & dy' & w' & _ & Hdx' & Hdy' & _)].
    apply Hother in Hdx' as Hdx'', Hdy' as Hdy''.
    assert (dx' = dx) by congruence. assert (dy' = dy) by congruence. subst.
    by eapply H8.
Qed.

(** The test [new_distance < distances[neighbor]] failed. *)
Lemma inv_skip v w todo st dv :
  inv g s u du ((v, w) :: todo) st →
  distances st !! v = Some dv → dv <= du + w →
  inv g s u du todo st.
Proof.
  intros [H1 H2 H3 H4 H5 H6 H7 H8] Hv Hle. constructor; try done.
  intros x dx Hdx Hlt. destruct (H5 x dx Hdx Hlt) as [Hq|Hr]; [by left|]. right.
  intros v' w' He'. destruct (Hr v' w' He') as [(-> & -> & Hin)|Hr']; [|by right].
  apply elem_of_cons in Hin as [[= -> ->]|Hin]; [|by left].
  right. by exists dv.
Qed.

(** The relaxation proper: lines 77-81. *)
Lemma inv_update v w todo st dv :
  inv g s u du ((v, w) :: todo) st → edge g u v w →
  (∃ d', distances st !! u = Some d' ∧ d' <= du) →
  distances st !! v = Some dv → du + w < dv →
  inv g s u du todo
    {| distances := <[v := du + w]> (distances st);
       predecessors := <[v := u]> (predecessors st);
       pq := pq_push (du + w, v) (pq st) |}.
Proof.
  intros [H1 H2 H3 H4 H5 H6 H7 H8] He (dc & Hdc & Hdcle) Hv Hlt.
  destruct (relax_no_wrap v w He) as (Hdu & Hw & _ & _).
  assert (Hmax : du + w < INT_MAX) by (pose proof (H2 v dv Hv); lia).
  assert (Hvs : v ≠ s) by (intros ->; assert (dv = 0) by congruence; lia).
  assert (Hvu : u ≠ v) by (intros ->; assert (dv = dc) by congruence; lia).
  assert (Hpath : ∃ p, path g s p v (du + w)).
  { destruct Hsh as [[p Hp] _]. exists (p ++ [v]). by eapply path_step. }
  constructor; simpl.
  - by rewrite lookup_insert_ne.
  - intros y d. destruct (decide (y = v)) as [->|Hne].
    + rewrite lookup_insert_eq. intros [= <-]. lia.
    + rewrite lookup_insert_ne by done. apply H2.
  - intros y Hk. destruct (decide (y = v)) as [->|Hne].
    + rewrite lookup_insert_eq. by eexists.
    + rewrite lookup_insert_ne by done. by apply H3.
  - intros d y Hin. apply elem_of_cons in Hin as [[= -> ->]|Hin].
    + split; [done|]. exists (du + w). rewrite lookup_insert_eq. split; [done|lia].
    + destruct (H4 d y Hin) as [Hp (d' & Hd' & Hle)]. split; [done|].
      destruct (decide (y = v)) as [->|Hne].
      * exists (du + w). rewrite lookup_insert_eq. split; [done|].
        assert (d' = dv) by congruence. lia.
      * exists d'. by rewrite lookup_insert_ne.
  - intros x dx. destruct (decide (x = v)) as [->|Hne].
    + rewrite lookup_insert_eq. intros [= <-] _. left. apply list_elem_of_here.
    + rewrite lookup_insert_ne by done. intros Hdx Hlt'.
      destruct (H5 x dx Hdx Hlt') as [Hq|Hr]; [left; by apply list_elem_of_further|].
      right. intros v' w' He'.
      destruct (Hr v' w' He') as [(-> & -> & Hin)|(dv' & Hdv' & Hle)].
      * apply elem_of_cons in Hin as [[= -> ->]|Hin]; [|by left].
        right. exists (du + w). rewrite lookup_insert_eq. split; [done|lia].
      * right. destruct (decide (v' = v)) as [->|Hne'].
        -- exists (du + w). rewrite lookup_insert_eq. split; [done|].
           assert (dv' = dv) by congruence. lia.
        -- exists dv'. by rewrite lookup_insert_ne.
  - intros y x. destruct (decide (y = v)) as [->|Hne].
    + rewrite lookup_insert_eq. intros [= <-]. split; [done|].
      exists dc, (du + w), w. rewrite lookup_insert_eq, lookup_insert_ne by done.
      repeat split; try done. lia.
    + rewrite lookup_insert_ne by done. intros Hyx.
      destruct (H6 y x Hyx) as [Hys (dx & dy & w' & He' & Hdx & Hdy & Hle & Hrest)].
      split; [done|]. rewrite (lookup_insert_ne _ v y) by done.
      destruct (decide (x = v)) as [->|Hne'].
      * exists (du + w), dy, w'. rewrite lookup_insert_eq.
        assert (dx = dv) by congruence. repeat split; try tauto. lia.
      * exists dx, dy, w'. rewrite lookup_insert_ne by done. tauto.
  - intros y d. destruct (decide (y = v)) as [->|Hne].
    + rewrite !lookup_insert_eq. intros. by eexists.
    + rewrite !lookup_insert_ne by done. apply H7.
  - destruct H8 as [rank H8].
    exists (fun y => if decide (y = v) then S (rank u) else rank y).
    intros y x dx dy. destruct (decide (y = v)) as [->|Hne].
    + rewrite !lookup_insert_eq. intros [= <-].
      rewrite lookup_insert_ne by done. intros Hdx [= <-].
      assert (dx = dc) by congruence. subst dx.
      repeat case_decide; try done.
      destruct (decide (dc = du + w)); [right; split; [done|lia]|left; lia].
    + rewrite (lookup_insert_ne _ v y) by done.
      rewrite (lookup_insert_ne (distances st) v y) by done.
      intros Hyx Hdx Hdy.
      destruct (decide (x = v)) as [->|Hne'].
      * rewrite lookup_insert_eq in Hdx. injection Hdx as <-.
        left. destruct (H8 y v dv dy Hyx Hv Hdy); lia.
      * rewrite lookup_insert_ne in Hdx by done.
        repeat case_decide; try done. by eapply H8.
Qed.

Lemma inv_relax v w todo st :
  inv g s u du ((v, w) :: todo) st → edge g u v w →
  (∃ d', distances st !! u = Some d' ∧ d' <= du) →
  inv g s u du todo (relax u du st (v, w)) ∧
  (∃ d', distances (relax u du st (v, w)) !! u = Some d' ∧ d' <= du).
Proof.
  intros Hinv He Hcur. unfold relax. simpl fst. simpl snd.
  destruct (relax_no_wrap v w He) as (Hdu & Hw & Hmax & ->).
  unfold map_index. destruct (distances st !! v) as [dv|] eqn:Hv.
  - destruct (du + w <? dv) eqn:Hlt.
    + apply Z.ltb_lt in Hlt. split; [by eapply inv_update|].
      destruct Hcur as (dc & Hdc & Hle). simpl. exists dc.
      rewrite lookup_insert_ne; [done|].
      intros <-. assert (dv = dc) by congruence. lia.
    + apply Z.ltb_ge in Hlt. split; [|done].
      destruct st; simpl in *. by eapply inv_skip.
  - assert ((du + w <? 0) = false) as -> by (apply Z.ltb_ge; lia).
    split; [by eapply inv_insert_zero|].
    destruct Hcur as (dc & Hdc & Hle). simpl. exists dc.
    rewrite lookup_insert_ne; [done|]. intros <-. congruence.
Qed.

Lemma inv_fold_relax adj st :
  (∀ e, e ∈ adj → edge g u e.1 e.2) →
  inv g s u du adj st →
  (∃ d', distances st !! u = Some d' ∧ d' <= du) →
  inv g s u du [] (fold_left (relax u du) adj st).
Proof.
  revert st. induction adj as [|[v w] adj IH]; intros st Hadj Hinv Hcur; [done|].
  simpl. destruct (inv_relax v w adj st) as [Hinv' Hcur']; try done.
  - apply (Hadj (v, w)). apply list_elem_of_here.
  - apply IH; try done. intros e He. apply Hadj. by apply list_elem_of_further.
Qed.
End Relax.

(** One iteration of the [while] loop keeps the invariant. *)
Lemma inv_step u0 d0 st :
  inv g s u0 d0 [] st → pq st ≠ [] →
  ∃ u1 d1, inv g s u1 d1 [] (step g st).
Proof.
  intros Hinv Hne. unfold step.
  destruct (pq_top (pq st)) as [[d u]|] eqn:Htop; [|by apply pq_top_None in Htop].
  destruct (inv_pq _ _ _ _ _ _ Hinv d u (pq_top_elem _ _ Htop))
    as [Hp (dc & Hdc & Hle)].
  rewrite (map_index_Some _ _ _ Hdc). exists u, d.
  destruct (dc <? d) eqn:Hstale.
  - apply Z.ltb_lt in Hstale. eapply inv_pop; try done. lia.
  - apply Z.ltb_ge in Hstale.
    destruct (graph_find g u) as [adj|] eqn:Hf.
    + apply inv_fold_relax.
      * eapply top_shortest; done.
      * intros [v w] Hin. by exists adj.
      * eapply inv_pop; try done. intros _ v w (adj' & Hf' & Hin). congruence.
      * simpl. exists dc. split; [done|lia].
    + eapply inv_pop; try done. intros _ v w (adj' & Hf' & _). congruence.
Qed.

Lemma inv_init : inv g s s 0 [] (init g s).
Proof.
  constructor; simpl.
  - apply lookup_insert_eq.
  - intros v d. destruct (decide (v = s)) as [->|Hne].
    + rewrite lookup_insert_eq. intros [= <-]. unfold INT_MAX. lia.
    + rewrite lookup_insert_ne by done. intros H.
      apply init_distances_lookup in H as ->. unfold INT_MAX. lia.
  - intros v Hk. destruct (decide (v = s)) as [->|Hne].
    + rewrite lookup_insert_eq. by eexists.
    + rewrite lookup_insert_ne by done. rewrite init_distances_keys by done. by eexists.
  - intros d v Hin. apply list_elem_of_singleton in Hin as [= -> ->].
    split; [exists [s]; constructor|]. exists 0. by rewrite lookup_insert_eq.
  - intros x dx. destruct (decide (x = s)) as [->|Hne].
    + rewrite lookup_insert_eq. intros [= <-] _. left. apply list_elem_of_here.
    + rewrite lookup_insert_ne by done. intros H.
      apply init_distances_lookup in H as ->. lia.
  - intros v x. by rewrite lookup_empty.
  - intros v d. destruct (decide (v = s)) as [->|Hne]; [done|].
    rewrite lookup_insert_ne by done. intros H.
    apply init_distances_lookup in H as ->. lia.
  - exists (fun _ => O). intros v x dx dv. by rewrite lookup_empty.
Qed.

Lemma inv_final : ∃ u d, inv g s u d [] (final g s).
Proof.
  unfold final.
  apply (main_loop_invariant (fun st => ∃ u d, inv g s u d [] st) g).
  - intros st (u & d & Hinv) Hne. by eapply inv_step.
  - exists s, 0. apply inv_init.
Qed.
End Invariant.

(** ** The fuel of reconstruct_path *)

Section Walk.
Variable start_node : string.

Lemma reconstruct_loop_unfold n predecessors c path :
  c ≠ start_node →
  reconstruct_loop (S n) predecessors start_node c path =
    match predecessors !! c with
    | None => Returns []
    | Some p => reconstruct_loop n predecessors start_node p (path ++ [c])
    end.
Proof.
  intros Hne. simpl. apply String.eqb_neq in Hne. rewrite Hne.
  unfold map_at. by destruct (predecessors !! c).
Qed.

Lemma reconstruct_loop_at_start n predecessors path :
  reconstruct_loop n predecessors start_node start_node path =
    Returns (rev (path ++ [start_node])).
Proof. destruct n; simpl; by rewrite String.eqb_refl. Qed.

Lemma ends_unique predecessors k c :
  ends predecessors start_node k c →
  ∀ k', ends predecessors start_node k' c → k = k'.
Proof.
  induction 1 as [|c Hne Hc|k c x Hne Hc _ IH]; intros k' H'; inversion H'; subst;
    try congruence.
  f_equal. apply IH. congruence.
Qed.

Lemma returns_ends predecessors n c path r :
  reconstruct_loop n predecessors start_node c path = Returns r →
  ∃ k, (k <= n)%nat ∧ ends predecessors start_node k c.
Proof.
  revert c path. induction n as [|n IH]; intros c path.
  - simpl. destruct (String.eqb c start_node) eqn:E; [|done].
    apply String.eqb_eq in E as ->. intros _. exists O. split; [lia|constructor].
  - destruct (decide (c = start_node)) as [->|Hne].
    { intros _. exists O. split; [lia|constructor]. }
    rewrite reconstruct_loop_unfold by done.
    destruct (predecessors !! c) as [x|] eqn:Hc.
    + intros H. apply IH in H as (k & Hk & He). exists (S k).
      split; [lia|]. by eapply ends_step.
    + intros _. exists 1%nat. split; [lia|]. by apply ends_dead.
Qed.

Lemma ends_fuel predecessors k c :
  ends predecessors start_node k c →
  ∀ n path, (k <= n)%nat →
    reconstruct_loop n predecessors start_node c path =
    reconstruct_loop k predecessors start_node c path.
Proof.
  induction 1 as [|c Hne Hc|k c x Hne Hc _ IH]; intros n path Hle.
  - by rewrite !reconstruct_loop_at_start.
  - destruct n as [|n]; [lia|]. rewrite !reconstruct_loop_unfold by done.
    by rewrite Hc.
  - destruct n as [|n]; [lia|]. rewrite !reconstruct_loop_unfold by done.
    rewrite Hc. apply IH. lia.
Qed.

Lemma ends_delete predecessors k x :
  ends predecessors start_node k x →
  ∀ m c, (k < m)%nat → ends predecessors start_node m c →
    ends (delete c predecessors) start_node k x.
Proof.
  induction 1 as [|y Hne Hy|k y x Hne Hy Hx IH]; intros m c Hlt Hc.
  - constructor.
  - apply ends_dead; [done|]. destruct (decide (c = y)) as [->|Hcy].
    + apply lookup_delete_eq.
    + by rewrite lookup_delete_ne.
  - assert (c ≠ y) as Hcy.
    { intros ->. assert (Hk : ends predecessors start_node (S k) y)
        by (by eapply ends_step).
      pose proof (ends_unique _ _ _ Hk _ Hc). lia. }
    eapply ends_step; [done|by rewrite lookup_delete_ne|].
    apply (IH m); [lia|done].
Qed.

(** The walk visits pairwise different nodes: it is not longer than the
    map has entries, and one more. *)
Lemma ends_bound k :
  ∀ (predecessors : Predecessors) c,
    ends predecessors start_node k c → (k <= S (size predecessors))%nat.
Proof.
  induction k as [|k IH]; intros predecessors c H; [lia|].
  inversion H as [|c' Hne Hc|k' c' x Hne Hc Hx]; subst; [lia|].
  pose proof (ends_delete _ _ _ Hx (S k) c (Nat.lt_succ_diag_r k) H) as Hd.
  apply IH in Hd. rewrite map_size_delete, Hc in Hd.
  assert (size predecessors ≠ 0%nat).
  { intros H0. apply map_size_empty_inv in H0. subst.
    by rewrite lookup_empty in Hc. }
  lia.
Qed.

(** The fuel of [reconstruct_path] is enough whenever some fuel is: when
    [reconstruct_path] is [Running], the loop of the source runs forever. *)
Lemma reconstruct_loop_enough predecessors n c r :
  reconstruct_loop n predecessors start_node c [] = Returns r →
  reconstruct_path predecessors start_node c = Returns r.
Proof.
  intros H. destruct (returns_ends _ _ _ _ _ H) as (k & Hk & He).
  unfold reconstruct_path.
  rewrite (ends_fuel _ _ _ He (S (size predecessors))) by (by eapply ends_bound).
  by rewrite <- (ends_fuel _ _ _ He n).
Qed.

Lemma reconstruct_loop_never_throws predecessors n c path :
  reconstruct_loop n predecessors start_node c path ≠ Throws.
Proof.
  revert c path. induction n as [|n IH]; intros c path.
  - simpl. by destruct (String.eqb c start_node).
  - destruct (decide (c = start_node)) as [->|Hne].
    + by rewrite reconstruct_loop_at_start.
    + rewrite reconstruct_loop_unfold by done.
      destruct (predecessors !! c); [apply IH|done].
Qed.

(** [reconstruct_path] is [Running] exactly when no number of iterations
    ends the walk. *)
Lemma reconstruct_path_running predecessors c :
  reconstruct_path predecessors start_node c = Running ↔
  ∀ n, reconstruct_loop n predecessors start_node c [] = Running.
Proof.
  split; [|intros H; apply H].
  intros Hrun n.
  destruct (reconstruct_loop n predecessors start_node c []) as [r| |] eqn:E.
  - apply reconstruct_loop_enough in E. congruence.
  - by apply reconstruct_loop_never_throws in E.
  - done.
Qed.

Lemma dead_end_returns predecessors c :
  dead_end predecessors start_node c →
  ∀ path, ∃ n, reconstruct_loop n predecessors start_node c path = Returns [].
Proof.
  induction 1 as [c Hne Hc|c x Hne Hc _ IH]; intros path.
  - exists 1%nat. rewrite reconstruct_loop_unfold by done. by rewrite Hc.
  - destruct (IH (path ++ [c])) as [n Hn]. exists (S n).
    rewrite reconstruct_loop_unfold by done. by rewrite Hc.
Qed.
End Walk.

(** ** What holds when dijkstra_shortest_path returns *)

Lemma path_head_last g s p v d :
  path g s p v d → head p = Some s ∧ last p = Some v.
Proof.
  induction 1 as [|p u v w d Hp [IH1 IH2] He]; [done|]. split.
  - destruct p; [done|]. done.
  - by rewrite last_snoc.
Qed.

Lemma route_snoc g p u v w d :
  route g p d → last p = Some u → edge g u v w → route g (p ++ [v]) (d + w).
Proof.
  revert d. induction p as [|x p IH]; intros d; [done|].
  destruct p as [|y p].
  - simpl. intros -> [= ->] He. exists w. split; [done|lia].
  - intros (w' & He' & Hr) Hl He. simpl in Hl.
    change ((x :: y :: p) ++ [v]) with (x :: ((y :: p) ++ [v])).
    change (∃ w0, edge g x y w0 ∧ route g ((y :: p) ++ [v]) (d + w - w0)).
    exists w'. split; [done|].
    replace (d + w - w') with (d - w' + w) by lia. by apply IH.
Qed.

Lemma path_route g s p v d : path g s p v d → route g p d.
Proof.
  induction 1 as [|p u v w d Hp IH He]; [done|].
  destruct (path_head_last _ _ _ _ _ Hp) as [_ Hl]. by eapply route_snoc.
Qed.

Section Final.
Variable g : Graph.
Variable s : string.
Hypothesis Hnn : nonneg_weights g.
Hypothesis Hov : no_overflow g s.

Local Abbreviation dist := (distances (final g s)).
Local Abbreviation pred := (predecessors (final g s)).

Lemma final_inv : ∃ u d, inv g s u d [] (final g s).
Proof. by apply inv_final. Qed.

Lemma final_pq x : x ∉ pq (final g s).
Proof. unfold final. rewrite main_loop_terminates. apply not_elem_of_nil. Qed.

Lemma final_start : dist !! s = Some 0.
Proof. destruct final_inv as (u & d & Hinv). apply Hinv. Qed.

Lemma final_pred_start : pred !! s = None.
Proof.
  destruct final_inv as (u & d & Hinv).
  destruct (pred !! s) as [x|] eqn:E; [|done].
  by destruct (inv_pred _ _ _ _ _ _ Hinv s x E).
Qed.

(** A recorded distance is below every path weight. *)
Lemma final_le_path v dv p W :
  dist !! v = Some dv → path g s p v W → dv <= W.
Proof.
  intros Hdv Hp. destruct final_inv as (u & d & Hinv).
  pose proof (inv_range _ _ _ _ _ _ Hinv v dv Hdv) as Hr.
  destruct (lower_bound g s Hnn u d _ p v W Hinv Hp)
    as [H|[(dv' & Hdv' & H)|(dy & y & Hy & _)]].
  - lia.
  - assert (dv' = dv) by congruence. lia.
  - by apply final_pq in Hy.
Qed.

(** A recorded distance of a key or of the start node, when it is not the
    sentinel, is the weight of a path. *)
Lemma final_is_path v dv :
  dist !! v = Some dv → dv < INT_MAX → is_key g v ∨ v = s →
  ∃ p, path g s p v dv.
Proof.
  intros Hdv Hlt Hv. destruct final_inv as (u & d & Hinv).
  destruct (decide (v = s)) as [->|Hne].
  - rewrite final_start in Hdv. injection Hdv as <-. exists [s]. constructor.
  - destruct Hv as [Hk|Hv]; [|done].
    destruct (inv_has_pred _ _ _ _ _ _ Hinv v dv Hdv Hlt Hk Hne) as [x Hx].
    destruct (inv_pred _ _ _ _ _ _ Hinv v x Hx)
      as [_ (dx & dv' & w & _ & _ & Hdv' & _ & _ & Hp)].
    assert (dv' = dv) by congruence. by subst.
Qed.

Lemma final_shortest v dv :
  dist !! v = Some dv → dv < INT_MAX → is_key g v ∨ v = s →
  shortest g s v dv.
Proof.
  intros Hdv Hlt Hv. split; [by apply final_is_path|].
  intros p' W Hp'. by eapply final_le_path.
Qed.

(** A key of the graph and the start node have a recorded distance. *)
Lemma final_recorded v :
  is_key g v ∨ v = s → ∃ dv, dist !! v = Some dv ∧ 0 <= dv <= INT_MAX.
Proof.
  intros Hv. destruct final_inv as (u & d & Hinv).
  assert (Hsome : is_Some (dist !! v)).
  { destruct Hv as [Hk| ->]; [by apply (inv_keys _ _ _ _ _ _ Hinv)|].
    rewrite final_start. by eexists. }
  destruct Hsome as [dv Hdv]. exists dv. split; [done|].
  by apply (inv_range _ _ _ _ _ _ Hinv v).
Qed.

(** A reachable node is reachable by a path that the [int]s can weigh. *)
Lemma final_short_path p v W :
  path g s p v W → ∃ p' W', path g s p' v W' ∧ W' <= INT_MAX.
Proof.
  induction 1 as [|p x v w Wx Hp IH He].
  - exists [s], 0. split; [constructor|unfold INT_MAX; lia].
  - destruct IH as (px & Wx' & Hpx & Hle).
    pose proof (Hnn _ _ _ He) as Hw.
    destruct (final_recorded x (or_introl (edge_is_key _ _ _ _ He)))
      as (dx & Hdx & Hr).
    pose proof (final_le_path x dx _ _ Hdx Hpx) as Hle'.
    destruct (decide (dx < INT_MAX)) as [Hlt|Hge].
    + pose proof (final_shortest x dx Hdx Hlt (or_introl (edge_is_key _ _ _ _ He)))
        as Hsh.
      pose proof (Hov _ _ _ _ Hsh He) as Hsum.
      destruct Hsh as [[q Hq] _]. exists (q ++ [v]), (dx + w).
      split; [by eapply path_step|done].
    + assert (Hsh : shortest g s x Wx').
      { split; [by eexists|]. intros q Wq Hq.
        pose proof (final_le_path x dx _ _ Hdx Hq). lia. }
      pose proof (Hov _ _ _ _ Hsh He) as Hsum.
      exists (px ++ [v]), (Wx' + w). split; [by eapply path_step|done].
Qed.

(** The recorded distance of a reachable key, or of the start node, is
    the shortest distance. *)
Lemma final_reachable_shortest v :
  is_key g v ∨ v = s → reachable g s v →
  ∃ dv, dist !! v = Some dv ∧ shortest g s v dv.
Proof.
  intros Hv (p & W & Hp). destruct (final_recorded v Hv) as (dv & Hdv & Hr).
  exists dv. split; [done|].
  destruct (decide (dv < INT_MAX)) as [Hlt|Hge]; [by apply final_shortest|].
  destruct (final_short_path p v W Hp) as (q & Wq & Hq & Hle).
  pose proof (final_le_path v dv _ _ Hdv Hq) as Hle'.
  assert (Wq = dv) as -> by lia.
  split; [by eexists|]. intros q' W' Hq'. by eapply final_le_path.
Qed.

(** When no sum reaches the sentinel, every reachable node has a recorded
    distance below the sentinel. *)
Lemma final_reached p v W :
  below_sentinel g s →
  path g s p v W → ∃ dv, dist !! v = Some dv ∧ dv <= W ∧ dv < INT_MAX.
Proof.
  intros Hbs Hp. destruct final_inv as (u & d & Hinv).
  induction Hp as [|p x v w Wx Hp IH He].
  - exists 0. rewrite final_start. unfold INT_MAX. repeat split; lia.
  - destruct IH as (dx & Hdx & Hle & Hlt).
    pose proof (final_shortest x dx Hdx Hlt (or_introl (edge_is_key _ _ _ _ He))) as Hsh.
    pose proof (Hbs _ _ _ _ Hsh He) as Hsum.
    destruct (inv_relaxed _ _ _ _ _ _ Hinv x dx Hdx Hlt) as [Hq|Hr].
    + by apply final_pq in Hq.
    + destruct (Hr v w He) as [(_ & _ & Hin)|(dv & Hdv & Hle')].
      * by apply elem_of_nil in Hin.
      * exists dv. repeat split; [done|lia|lia].
Qed.

(** Along a predecessor entry the recorded distances differ by exactly the
    weight of an edge. *)
Lemma final_pred_edge v x :
  pred !! v = Some x →
  v ≠ s ∧ ∃ dx dv w, edge g x v w ∧ dist !! x = Some dx ∧
    dist !! v = Some dv ∧ dv = dx + w ∧ 0 <= dx ∧ dv < INT_MAX.
Proof.
  intros Hx. destruct final_inv as (u & d & Hinv).
  destruct (inv_pred _ _ _ _ _ _ Hinv v x Hx)
    as [Hne (dx & dv & w & He & Hdx & Hdv & Hle & Hlt & _)].
  split; [done|]. exists dx, dv, w.
  pose proof (Hnn _ _ _ He) as Hw.
  pose proof (inv_range _ _ _ _ _ _ Hinv x dx Hdx) as Hr.
  assert (Hsh : shortest g s x dx).
  { apply final_shortest; [done|lia|]. left. by eapply edge_is_key. }
  destruct Hsh as [[p Hp] _].
  pose proof (final_le_path v dv _ _ Hdv (path_step g s p x v w dx Hp He)).
  repeat split; try done; lia.
Qed.

(** The predecessor entries form a well-founded relation. *)
Lemma final_pred_ind (P : string → Prop) :
  (∀ c, (∀ x, pred !! c = Some x → P x) → P c) → ∀ c, P c.
Proof.
  intros Hstep. destruct final_inv as (u & d & Hinv).
  destruct (inv_rank _ _ _ _ _ _ Hinv) as [rank Hrank].
  assert (Hlex : ∀ a b c dc,
    dist !! c = Some dc → Z.to_nat dc = a → rank c = b → P c).
  { induction a as [a IHa] using lt_wf_ind.
    induction b as [b IHb] using lt_wf_ind.
    intros c dc Hdc Ha Hb. apply Hstep. intros x Hx.
    destruct (final_pred_edge c x Hx)
      as [_ (dx & dc' & w & _ & Hdx & Hdc' & _ & Hdx0 & _)].
    assert (dc' = dc) by congruence. subst dc'.
    destruct (Hrank c x dx dc Hx Hdx Hdc) as [Hlt|[-> Hlt]].
    - apply (IHa (Z.to_nat dx)) with (b := rank x) (dc := dx); [lia|done..].
    - apply (IHb (rank x)) with (dc := dc); [lia|done..]. }
  intros c. apply Hstep. intros x Hx.
  destruct (final_pred_edge c x Hx) as [_ (dx & _ & _ & _ & Hdx & _)].
  by eapply Hlex.
Qed.

(** The backward walk from a node with a recorded distance below the
    sentinel arrives at the start node along edges of the graph. *)
Lemma final_walk c :
  ∀ dc, dist !! c = Some dc → dc < INT_MAX → is_key g c ∨ c = s →
  ∃ p, path g s p c dc ∧
    ∀ acc, ∃ n, reconstruct_loop n pred s c acc = Returns (p ++ rev acc).
Proof.
  induction c as [c IH] using final_pred_ind. intros dc Hdc Hlt Hc.
  destruct final_inv as (u & d & Hinv).
  destruct (decide (c = s)) as [->|Hne].
  - rewrite final_start in Hdc. injection Hdc as <-.
    exists [s]. split; [constructor|]. intros acc. exists O.
    rewrite reconstruct_loop_at_start. by rewrite rev_app_distr.
  - destruct Hc as [Hk|Hc]; [|done].
    destruct (inv_has_pred _ _ _ _ _ _ Hinv c dc Hdc Hlt Hk Hne) as [x Hx].
    destruct (final_pred_edge c x Hx)
      as [_ (dx & dc' & w & He & Hdx & Hdc' & Heq & Hdx0 & _)].
    assert (dc' = dc) by congruence. subst dc'.
    pose proof (Hnn _ _ _ He) as Hw.
    destruct (IH x Hx dx Hdx) as (p & Hp & Hloop);
      [lia|left; by eapply edge_is_key|].
    exists (p ++ [c]). split; [subst dc; by eapply path_step|].
    intros acc. destruct (Hloop (acc ++ [c])) as [n Hn]. exists (S n).
    rewrite reconstruct_loop_unfold by done. rewrite Hx, Hn.
    by rewrite rev_app_distr, <- app_assoc.
Qed.

(** The backward walk ends, whatever node it is asked to stop at. *)
Lemma final_walk_ends start_node c :
  ∀ acc, ∃ n r, reconstruct_loop n pred start_node c acc = Returns r.
Proof.
  induction c as [c IH] using final_pred_ind. intros acc.
  destruct (decide (c = start_node)) as [->|Hne].
  - exists O. eexists. apply reconstruct_loop_at_start.
  - destruct (pred !! c) as [x|] eqn:Hx.
    + destruct (IH x eq_refl (acc ++ [c])) as (n & r & Hn). exists (S n), r.
      rewrite reconstruct_loop_unfold by done. by rewrite Hx.
    + exists 1%nat, []. rewrite reconstruct_loop_unfold by done. by rewrite Hx.
Qed.
End Final.

(** ** Unreachable nodes

    Nothing here depends on the weights: a relaxation only ever touches a
    neighbour of a node taken from the queue. *)

Section Unreachable.
Variable g : Graph.
Variable s : string.

Lemma reachable_start : reachable g s s.
Proof. exists [s], 0. constructor. Qed.

Lemma reachable_edge u v w : reachable g s u → edge g u v w → reachable g s v.
Proof. intros (p & d & Hp) He. exists (p ++ [v]), (d + w). by eapply path_step. Qed.

Lemma reach_inv_index st k :
  reachable g s k → reach_inv g s st →
  reach_inv g s {| distances := (map_index (distances st) k).2;
                   predecessors := predecessors st; pq := pq st |}.
Proof.
  intros Hk [H1 H2 H3]. constructor; simpl; try done.
  intros v Hv Hnr. rewrite map_index_lookup_ne; [by apply H3|].
  by intros ->.
Qed.

Lemma reach_inv_relax u du st e :
  reachable g s u → edge g u e.1 e.2 → reach_inv g s st →
  reach_inv g s (relax u du st e).
Proof.
  intros Hu He Hinv. pose proof (reachable_edge _ _ _ Hu He) as Hv.
  pose proof (reach_inv_index st e.1 Hv Hinv) as [H1 H2 H3].
  unfold relax. destruct (map_index (distances st) e.1) as [dn d1]. simpl in *.
  destruct (int_add du e.2 <? dn); constructor; simpl; try done.
  - intros d v [[= -> ->]|Hin]%elem_of_cons; [done|by eapply H1].
  - intros v x. destruct (decide (v = e.1)) as [->|Hne]; [done|].
    rewrite lookup_insert_ne by done. apply H2.
  - intros v Hk Hnr. rewrite lookup_insert_ne; [by apply H3|]. by intros <-.
Qed.

Lemma reach_inv_fold u du adj st :
  reachable g s u → (∀ e, e ∈ adj → edge g u e.1 e.2) → reach_inv g s st →
  reach_inv g s (fold_left (relax u du) adj st).
Proof.
  intros Hu. revert st. induction adj as [|e adj IH]; intros st Hadj Hinv; [done|].
  simpl. apply IH.
  - intros e' He'. apply Hadj. by apply list_elem_of_further.
  - apply reach_inv_relax; [done| |done]. apply Hadj, list_elem_of_here.
Qed.

Lemma reach_inv_step st : reach_inv g s st → reach_inv g s (step g st).
Proof.
  intros Hinv. unfold step.
  destruct (pq_top (pq st)) as [[d u]|] eqn:Htop; [|done].
  pose proof (ri_pq _ _ _ Hinv d u (pq_top_elem _ _ Htop)) as Hu.
  pose proof (reach_inv_index st u Hu Hinv) as Hinv1.
  destruct (map_index (distances st) u) as [dc d1]. simpl in Hinv1.
  assert (Hinv2 : reach_inv g s {| distances := d1;
            predecessors := predecessors st; pq := pq_pop (pq st) |}).
  { destruct Hinv1 as [H1 H2 H3]. constructor; simpl in *; try done.
    intros d' v Hin. apply (H1 d'). by apply pq_pop_elem. }
  destruct (dc <? d); [done|].
  destruct (graph_find g u) as [adj|] eqn:Hf; [|done].
  apply reach_inv_fold; try done. intros [v w] Hin. by exists adj.
Qed.

Lemma reach_inv_init : reach_inv g s (init g s).
Proof.
  constructor; simpl.
  - intros d v [= -> ->]%list_elem_of_singleton. apply reachable_start.
  - intros v x. by rewrite lookup_empty.
  - intros v Hk Hnr. rewrite lookup_insert_ne.
    + by apply init_distances_keys.
    + intros <-. apply Hnr, reachable_start.
Qed.

Lemma reach_inv_final : reach_inv g s (final g s).
Proof.
  unfold final. apply (main_loop_invariant (reach_inv g s) g).
  - intros st Hinv _. by apply reach_inv_step.
  - apply reach_inv_init.
Qed.

(** No node that the start node does not reach gets a predecessor. *)
Lemma unreachable_no_predecessor v :
  ¬ reachable g s v → (dijkstra_shortest_path g s).2 !! v = None.
Proof.
  intros Hnr. pose proof reach_inv_final as [H1 H2 H3].
  unfold dijkstra_shortest_path. cbv zeta. unfold snd.
  destruct (predecessors (final g s) !! v) as [x|] eqn:E; [|done].
  destruct Hnr. by eapply H2.
Qed.

(** A key of the graph that the start node does not reach keeps the
    sentinel and gets no predecessor. *)
Lemma unreachable_key_sentinel v :
  is_key g v → ¬ reachable g s v →
  (dijkstra_shortest_path g s).1 !! v = Some INT_MAX ∧
  (dijkstra_shortest_path g s).2 !! v = None.
Proof.
  intros Hk Hnr. split; [|by apply unreachable_no_predecessor].
  pose proof reach_inv_final as [H1 H2 H3].
  unfold dijkstra_shortest_path. cbv zeta. unfold fst. by apply H3.
Qed.
End Unreachable.

(** ** The claims *)

Lemma below_sentinel_no_overflow g s : below_sentinel g s → no_overflow g s.
Proof. intros H u v w d Hsh He. specialize (H u v w d Hsh He). lia. Qed.

Lemma dijkstra_final g s :
  dijkstra_shortest_path g s =
    (distances (final g s), predecessors (final g s)).
Proof. reflexivity. Qed.

(** C1, amended. For every graph with non-negative weights in which no
    shortest distance extended by one more edge exceeds [INT_MAX], and for
    every start node, the distance recorded for a reachable node that is a
    key of the outer mapping, or the start node, is the minimum over all
    the paths from the start node of the sum of the edge weights. *)
Theorem C1_recorded_distance_is_shortest g s v :
  nonneg_weights g → no_overflow g s →
  is_key g v ∨ v = s → reachable g s v →
  ∃ d, (dijkstra_shortest_path g s).1 !! v = Some d ∧ shortest g s v d.
Proof.
  intros Hnn Hov Hv Hr. rewrite dijkstra_final. unfold fst.
  by apply final_reachable_shortest.
Qed.

(** C2, amended. For every graph with non-negative weights in which no
    shortest distance extended by one more edge exceeds [INT_MAX], and for
    every start node, key of the graph or not, the returned distance map
    maps the start node to 0. *)
Theorem C2_start_distance_zero g s :
  nonneg_weights g → no_overflow g s →
  (dijkstra_shortest_path g s).1 !! s = Some 0.
Proof.
  intros Hnn Hov. rewrite dijkstra_final. unfold fst. by apply final_start.
Qed.

(** C4, amended. For every graph with non-negative weights in which every
    shortest distance extended by one more edge stays below [INT_MAX], for
    every start node and every target that is reachable and is a key of the
    outer mapping or the start node, [reconstruct_path] on the returned
    predecessor map returns a sequence that begins with the start node,
    ends with the target, follows edges of the graph, and whose edge
    weights sum to the distance recorded for the target. *)
Theorem C4_reconstructed_path g s t :
  nonneg_weights g → below_sentinel g s →
  is_key g t ∨ t = s → reachable g s t →
  ∃ p d,
    reconstruct_path (dijkstra_shortest_path g s).2 s t = Returns p ∧
    (dijkstra_shortest_path g s).1 !! t = Some d ∧
    head p = Some s ∧ last p = Some t ∧ route g p d ∧ path g s p t d.
Proof.
  intros Hnn Hbs Ht (p0 & W & Hp0). rewrite dijkstra_final. unfold fst, snd.
  pose proof (below_sentinel_no_overflow g s Hbs) as Hov.
  destruct (final_reached g s Hnn Hov p0 t W Hbs Hp0) as (d & Hd & _ & Hlt).
  destruct (final_walk g s Hnn Hov t d Hd Hlt Ht) as (p & Hp & Hloop).
  destruct (Hloop []) as [n Hn]. simpl rev in Hn. rewrite app_nil_r in Hn.
  exists p, d. destruct (path_head_last _ _ _ _ _ Hp) as [Hh Hl].
  pose proof (path_route _ _ _ _ _ Hp) as Hr.
  repeat split; try done. by eapply reconstruct_loop_enough.
Qed.

(** C5. When the backward walk from the target, which stops at the start
    node, reaches a node other than the start node that has no predecessor
    entry, [reconstruct_path] returns the empty sequence: it returns, it
    does not throw, and it only reads the predecessor map. *)
Theorem C5_dead_end_returns_empty (predecessors : Predecessors) start_node target_node :
  dead_end predecessors start_node target_node →
  reconstruct_path predecessors start_node target_node = Returns [].
Proof.
  intros H. destruct (dead_end_returns _ _ _ H []) as [n Hn].
  by eapply reconstruct_loop_enough.
Qed.

(** C6. With the target equal to the start node, [reconstruct_path] returns
    the one-element sequence of the start node, for every predecessor map. *)
Theorem C6_target_is_start (predecessors : Predecessors) start_node :
  reconstruct_path predecessors start_node start_node = Returns [start_node].
Proof. unfold reconstruct_path. by rewrite reconstruct_loop_at_start. Qed.

(** C7, amended. For every graph with non-negative weights in which no
    shortest distance extended by one more edge exceeds [INT_MAX], and for
    every start node, the returned predecessor map has no entry for the
    start node. *)
Theorem C7_start_has_no_predecessor g s :
  nonneg_weights g → no_overflow g s →
  (dijkstra_shortest_path g s).2 !! s = None.
Proof.
  intros Hnn Hov. rewrite dijkstra_final. unfold snd. by apply final_pred_start.
Qed.

(** C8, amended. For every graph with non-negative weights in which no
    shortest distance extended by one more edge exceeds [INT_MAX], no
    addition of the relaxation wraps: a node with a predecessor entry has a
    recorded distance that is the recorded distance of its predecessor plus
    the weight of the edge, computed exactly, and every recorded distance
    of a key or of the start node that is not the sentinel is non-negative
    and is the unbounded sum of the weights along the path that
    [reconstruct_path] returns. *)
Theorem C8_additions_are_exact g s :
  nonneg_weights g → no_overflow g s →
  (∀ v x, (dijkstra_shortest_path g s).2 !! v = Some x →
     ∃ dx dv w, edge g x v w ∧
       (dijkstra_shortest_path g s).1 !! x = Some dx ∧
       (dijkstra_shortest_path g s).1 !! v = Some dv ∧
       dv = int_add dx w ∧ int_add dx w = dx + w ∧ dv < INT_MAX) ∧
  (∀ v d, (dijkstra_shortest_path g s).1 !! v = Some d → d ≠ INT_MAX →
     is_key g v ∨ v = s →
     0 <= d < INT_MAX ∧
     ∃ p, reconstruct_path (dijkstra_shortest_path g s).2 s v = Returns p ∧
          path g s p v d).
Proof.
  intros Hnn Hov. rewrite dijkstra_final. unfold fst, snd. split.
  - intros v x Hx.
    destruct (final_pred_edge g s Hnn Hov v x Hx)
      as [_ (dx & dv & w & He & Hdx & Hdv & Heq & Hdx0 & Hlt)].
    exists dx, dv, w. pose proof (Hnn _ _ _ He) as Hw.
    assert (int_add dx w = dx + w) as ->.
    { apply wrap_small. unfold in_int, INT_MIN, INT_MAX in *. lia. }
    by repeat split.
  - intros v d Hd Hne Hv.
    destruct (final_inv g s Hnn Hov) as (u & du & Hinv).
    pose proof (inv_range _ _ _ _ _ _ Hinv v d Hd) as Hr.
    assert (Hlt : d < INT_MAX) by lia. split; [lia|].
    destruct (final_walk g s Hnn Hov v d Hd Hlt Hv) as (p & Hp & Hloop).
    destruct (Hloop []) as [n Hn]. simpl rev in Hn. rewrite app_nil_r in Hn.
    exists p. split; [|done]. by eapply reconstruct_loop_enough.
Qed.

(** C10, amended. For every graph with non-negative weights in which no
    shortest distance extended by one more edge exceeds [INT_MAX], the
    predecessor chains of the returned map are acyclic: from a node to its
    predecessor the recorded distance never increases (it stays the same
    along an edge of weight 0), and the entries form a well-founded
    relation. So [reconstruct_path] on that map terminates for every start
    node and every target node. *)
Theorem C10_reconstruct_terminates g s :
  nonneg_weights g → no_overflow g s →
  (∀ v x, (dijkstra_shortest_path g s).2 !! v = Some x →
     ∃ dx dv, (dijkstra_shortest_path g s).1 !! x = Some dx ∧
              (dijkstra_shortest_path g s).1 !! v = Some dv ∧ dx <= dv) ∧
  well_founded (fun x v => (dijkstra_shortest_path g s).2 !! v = Some x) ∧
  ∀ start_node target_node,
    ∃ r, reconstruct_path (dijkstra_shortest_path g s).2 start_node target_node
         = Returns r.
Proof.
  intros Hnn Hov. rewrite dijkstra_final. unfold fst, snd. split; [|split].
  - intros v x Hx.
    destruct (final_pred_edge g s Hnn Hov v x Hx)
      as [_ (dx & dv & w & He & Hdx & Hdv & Heq & _)].
    exists dx, dv. pose proof (Hnn _ _ _ He). repeat split; [done..|lia].
  - intros c. induction c as [c IH] using (final_pred_ind g s Hnn Hov).
    by constructor.
  - intros start_node target_node.
    destruct (final_walk_ends g s Hnn Hov start_node target_node [])
      as (n & r & Hn).
    exists r. by eapply reconstruct_loop_enough.
Qed.

(** ** A condition on the weights that can be computed

    A shortest distance is at most the weight of a path without repeated
    node, which uses at most the edges of different nodes: when all the
    weights together stay below [INT_MAX], so does every sum that the
    algorithm forms. *)

Section SmallWeights.
Variable g : Graph.
Variable s : string.
Hypothesis Hnnb : nonneg_weightsb g = true.

Lemma adj_weight_nonneg adj :
  (∀ e, e ∈ adj → 0 <= e.2) → 0 <= adj_weight adj.
Proof.
  induction adj as [|e adj IH]; intros H; simpl; [lia|].
  pose proof (H e (list_elem_of_here _ _)).
  assert (0 <= adj_weight adj); [|lia].
  apply IH. intros e' He'. apply H. by apply list_elem_of_further.
Qed.

Lemma adj_weight_elem adj v w :
  (∀ e, e ∈ adj → 0 <= e.2) → (v, w) ∈ adj → w <= adj_weight adj.
Proof.
  induction adj as [|e adj IH]; intros H Hin; [by apply elem_of_nil in Hin|].
  assert (Hrest : ∀ e', e' ∈ adj → 0 <= e'.2).
  { intros e' He'. apply H. by apply list_elem_of_further. }
  pose proof (adj_weight_nonneg adj Hrest).
  pose proof (H e (list_elem_of_here _ _)). simpl.
  apply elem_of_cons in Hin as [<-|Hin]; simpl; [lia|].
  specialize (IH Hrest Hin). lia.
Qed.

Lemma entries_nonneg k adj e : (k, adj) ∈ g → e ∈ adj → 0 <= e.2.
Proof.
  intros Hk He. unfold nonneg_weightsb in Hnnb. rewrite forallb_forall in Hnnb.
  apply list_elem_of_In, Hnnb in Hk. simpl in Hk. rewrite forallb_forall in Hk.
  apply list_elem_of_In, Hk in He. lia.
Qed.

Lemma out_weight_nonneg x : 0 <= out_weight g x.
Proof.
  unfold out_weight. destruct (graph_find g x) as [adj|] eqn:Hf; [|lia].
  apply adj_weight_nonneg. intros e He.
  eapply entries_nonneg; [by apply graph_find_elem|done].
Qed.

Lemma edge_out_weight u v w : edge g u v w → w <= out_weight g u.
Proof.
  intros (adj & Hf & Hin). unfold out_weight. rewrite Hf.
  apply (adj_weight_elem adj v w); [|done]. intros e He.
  eapply entries_nonneg; [by apply graph_find_elem|done].
Qed.

Lemma sum_out_app l1 l2 : sum_out g (l1 ++ l2) = sum_out g l1 + sum_out g l2.
Proof. induction l1 as [|x l1 IH]; simpl; lia. Qed.

(** A path weighs at most what the edges that leave its nodes weigh. *)
Lemma path_sum_out p v d :
  path g s p v d → d + out_weight g v <= sum_out g p.
Proof.
  induction 1 as [|p u v w d Hp IH He]; [simpl; lia|].
  rewrite sum_out_app. simpl. apply edge_out_weight in He. lia.
Qed.

(** Every node of a path is reached by a prefix of the path. *)
Lemma path_prefix p v d x :
  path g s p v d → x ∈ p →
  ∃ p1 p2 d1, p = p1 ++ p2 ∧ path g s p1 x d1 ∧ d1 <= d.
Proof.
  pose proof (nonneg_weightsb_sound g Hnnb) as Hnn.
  induction 1 as [|p u v w d Hp IH He]; intros Hx.
  - apply list_elem_of_singleton in Hx as ->.
    exists [s], [], 0. split; [done|]. split; [constructor|lia].
  - pose proof (Hnn _ _ _ He) as Hw.
    destruct (decide (x ∈ p)) as [Hin|Hnin].
    + destruct (IH Hin) as (p1 & p2 & d1 & -> & Hp1 & Hle).
      exists p1, (p2 ++ [v]), d1. rewrite app_assoc.
      split; [done|]. split; [done|lia].
    + apply elem_of_app in Hx as [Hx|Hx]; [done|].
      apply list_elem_of_singleton in Hx as ->.
      exists (p ++ [v]), [], (d + w). rewrite app_nil_r.
      split; [done|]. split; [by eapply path_step|lia].
Qed.

(** A reachable node is reached, at no greater weight, without repeating
    a node. *)
Lemma path_simple p v d :
  path g s p v d → ∃ p' d', path g s p' v d' ∧ d' <= d ∧ NoDup p'.
Proof.
  pose proof (nonneg_weightsb_sound g Hnnb) as Hnn.
  induction 1 as [|p u v w d Hp IH He].
  - exists [s], 0. split; [constructor|]. split; [lia|]. apply NoDup_singleton.
  - destruct IH as (p' & d' & Hp' & Hle & Hnd).
    pose proof (Hnn _ _ _ He) as Hw.
    destruct (decide (v ∈ p')) as [Hin|Hnin].
    + destruct (path_prefix p' u d' v Hp' Hin) as (p1 & p2 & d1 & -> & Hp1 & Hle1).
      exists p1, d1. split; [done|]. split; [lia|].
      by apply NoDup_app in Hnd as [? _].
    + exists (p' ++ [v]), (d' + w). split; [by eapply path_step|].
      split; [lia|]. apply NoDup_app. split; [done|]. split.
      * intros x Hx ->%list_elem_of_singleton. done.
      * apply NoDup_singleton.
Qed.
End SmallWeights.

Lemma sum_out_cons_absent k adj g l :
  k ∉ l → sum_out ((k, adj) :: g) l = sum_out g l.
Proof.
  induction l as [|x l IH]; intros Hk; [done|].
  apply not_elem_of_cons in Hk as [Hne Hk]. simpl. rewrite (IH Hk).
  unfold out_weight. simpl. apply String.eqb_neq in Hne. by rewrite Hne.
Qed.

Lemma out_weight_cons k adj g x :
  out_weight ((k, adj) :: g) x =
    if String.eqb k x then adj_weight adj else out_weight g x.
Proof. unfold out_weight. simpl. by destruct (String.eqb k x). Qed.

Lemma sum_out_cons k adj g l :
  NoDup l → 0 <= adj_weight adj → (∀ x, 0 <= out_weight g x) →
  sum_out ((k, adj) :: g) l <= adj_weight adj + sum_out g l.
Proof.
  intros Hnd Ha Hout. induction l as [|x l IH]; [simpl; lia|].
  apply NoDup_cons in Hnd as [Hx Hnd]. simpl. rewrite out_weight_cons.
  destruct (String.eqb_spec k x) as [->|Hne].
  - rewrite sum_out_cons_absent by done. specialize (Hout x). lia.
  - specialize (IH Hnd). lia.
Qed.

(** Different nodes have different entries. *)
Lemma sum_out_total g l :
  nonneg_weightsb g = true → NoDup l → sum_out g l <= total_weight g.
Proof.
  revert l. induction g as [|[k adj] g IH]; intros l Hnnb Hnd.
  - clear Hnd. induction l as [|x l IHl]; [done|]. simpl. by unfold out_weight.
  - assert (Hadj : 0 <= adj_weight adj).
    { apply adj_weight_nonneg. intros e He.
      apply (entries_nonneg _ Hnnb k adj); [apply list_elem_of_here|done]. }
    assert (Hnnb' : nonneg_weightsb g = true).
    { unfold nonneg_weightsb in *. simpl in Hnnb.
      by apply andb_true_iff in Hnnb as [_ ?]. }
    pose proof (sum_out_cons k adj g l Hnd Hadj (out_weight_nonneg g Hnnb')).
    specialize (IH l Hnnb' Hnd). simpl total_weight. lia.
Qed.

(** The computed condition is enough for every start node. *)
Lemma small_weights_nonneg g : small_weights g = true → nonneg_weights g.
Proof.
  unfold small_weights. intros [H _]%andb_true_iff. by apply nonneg_weightsb_sound.
Qed.

Lemma small_weights_below_sentinel g s :
  small_weights g = true → below_sentinel g s.
Proof.
  unfold small_weights. intros [Hnnb Htot%Z.ltb_lt]%andb_true_iff.
  intros u v w d [[p Hp] Hmin] He.
  destruct (path_simple g s Hnnb p u d Hp) as (p' & d' & Hp' & Hle & Hnd).
  pose proof (path_sum_out g s Hnnb p' u d' Hp').
  pose proof (sum_out_total g p' Hnnb Hnd).
  pose proof (edge_out_weight g Hnnb u v w He).
  pose proof (Hmin _ _ Hp'). lia.
Qed.

Lemma small_weights_no_overflow g s :
  small_weights g = true → no_overflow g s.
Proof. intros H. by apply below_sentinel_no_overflow, small_weights_below_sentinel. Qed.

(** ** Concrete runs *)

(** An edge of a concrete graph. *)
Ltac edge_here :=
  eexists; split;
    [vm_compute; reflexivity
    |repeat first [apply list_elem_of_here | apply list_elem_of_further]].

(** The edges that leave a concrete node. *)
Ltac edge_cases He :=
  let adj := fresh "adj" in
  let Hf := fresh "Hf" in
  let Hin := fresh "Hin" in
  destruct He as (adj & Hf & Hin);
  vm_compute in Hf;
  first
    [ discriminate Hf
    | injection Hf as <-;
      repeat (apply elem_of_cons in Hin as [[= -> ->]|Hin]);
      try (by apply elem_of_nil in Hin) ].

Ltac nonneg_here := apply nonneg_weightsb_sound; reflexivity.

Lemma path_snoc g s p u v w d p' d' :
  path g s p u d → edge g u v w → p' = p ++ [v] → d' = d + w →
  path g s p' v d'.
Proof. intros Hp He -> ->. by eapply path_step. Qed.

Lemma graph_sentinel_paths p v d :
  path graph_sentinel "A" p v d →
  (v = "A" ∧ d = 0) ∨ (v = "B" ∧ d = 2147483647) ∨ (v = "C" ∧ d = 2147483648).
Proof.
  induction 1 as [|p u v w d Hp IH He]; [auto|].
  destruct IH as [[-> ->]|[[-> ->]|[-> ->]]]; edge_cases He; auto.
Qed.

Lemma graph_sink_paths p v d : path graph_sink "A" p v d → v = "A".
Proof.
  induction 1 as [|p u v w d Hp IH He]; [done|]. subst u. edge_cases He.
Qed.

(** C1, as stated, fails: [C] is a key, reachable at distance [INT_MAX + 1],
    but the relaxation of [B] never happens, because [0 + INT_MAX] is not
    below the sentinel, and [C] keeps the sentinel. *)
Lemma C1_counterexample :
  nonneg_weights graph_sentinel ∧
  is_key graph_sentinel "C" ∧
  reachable graph_sentinel "A" "C" ∧
  (dijkstra_shortest_path graph_sentinel "A").1 !! "C" = Some 2147483647 ∧
  shortest graph_sentinel "A" "C" 2147483648.
Proof.
  assert (Hp : path graph_sentinel "A" ["A"; "B"; "C"] "C" 2147483648).
  { apply (path_snoc _ _ ["A"; "B"] "B" "C" 1 2147483647); [|edge_here|done..].
    apply (path_snoc _ _ ["A"] "A" "B" 2147483647 0); [|edge_here|done..].
    constructor. }
  split; [nonneg_here|]. split; [by eexists|]. split; [by eexists _, _|].
  split; [by vm_compute|]. split; [by eexists|].
  intros p' d' Hp'. apply graph_sentinel_paths in Hp'.
  destruct Hp' as [[? _]|[[? _]|[_ ->]]]; [done..|lia].
Qed.

(** C2, as stated, fails: [2147483646 + 2] wraps to [INT_MIN], which is
    below the 0 recorded for the start node. *)
Lemma C2_counterexample :
  nonneg_weights graph_wrap_cycle ∧
  (dijkstra_shortest_path graph_wrap_cycle "A").1 !! "A" = Some (-2147483648).
Proof. split; [nonneg_here|by vm_compute]. Qed.

(** C3 on a node that appears only as a neighbour: [C] is a node of the
    graph that [A] does not reach, and the returned distance map has no
    entry for it, where the claim expects the sentinel. *)
Theorem C3_unreachable_neighbor_has_no_entry :
  nonneg_weights graph_sink ∧
  "C" ∈ neighbors graph_sink ∧
  ¬ reachable graph_sink "A" "C" ∧
  (dijkstra_shortest_path graph_sink "A").1 !! "C" = None ∧
  (dijkstra_shortest_path graph_sink "A").2 !! "C" = None.
Proof.
  split; [nonneg_here|]. split; [vm_compute; apply list_elem_of_here|].
  split; [|split; by vm_compute].
  intros (p & d & Hp). by apply graph_sink_paths in Hp.
Qed.

(** The same defect on a reachable node: [distances[neighbor]] creates the
    entry of [B] with value 0, and no relaxation can improve on 0. *)
Lemma neighbor_only_distance_zero :
  shortest graph_neighbor_only "A" "B" 5 ∧
  (dijkstra_shortest_path graph_neighbor_only "A").1 !! "B" = Some 0 ∧
  (dijkstra_shortest_path graph_neighbor_only "A").2 !! "B" = None ∧
  reconstruct_path (dijkstra_shortest_path graph_neighbor_only "A").2 "A" "B"
    = Returns [].
Proof.
  split; [|repeat split; by vm_compute]. split.
  - exists ["A"; "B"].
    apply (path_snoc _ _ ["A"] "A" "B" 5 0); [constructor|edge_here|done..].
  - assert (H : ∀ p v d, path graph_neighbor_only "A" p v d →
                (v = "A" ∧ d = 0) ∨ (v = "B" ∧ d = 5)).
    { induction 1 as [|p u v w d Hp IH He]; [auto|].
      destruct IH as [[-> ->]|[-> ->]]; edge_cases He; auto. }
    intros p' d' Hp'. apply H in Hp' as [[? _]|[_ ->]]; [done|lia].
Qed.

(** C4, as stated, fails: [B] is a key and is reachable, at distance
    [INT_MAX], which is not below the sentinel: [B] gets no predecessor and
    [reconstruct_path] returns the empty sequence. *)
Lemma C4_counterexample :
  nonneg_weights graph_sentinel_edge ∧
  is_key graph_sentinel_edge "B" ∧
  reachable graph_sentinel_edge "A" "B" ∧
  reconstruct_path (dijkstra_shortest_path graph_sentinel_edge "A").2 "A" "B"
    = Returns [].
Proof.
  split; [nonneg_here|]. split; [by eexists|]. split; [|by vm_compute].
  exists ["A"; "B"], 2147483647.
  apply (path_snoc _ _ ["A"] "A" "B" 2147483647 0); [constructor|edge_here|done..].
Qed.

(** C7, as stated, fails: after the wrap the start node is relaxed and
    gets [B] as its predecessor. *)
Lemma C7_counterexample :
  nonneg_weights graph_wrap_cycle ∧
  (dijkstra_shortest_path graph_wrap_cycle "A").2 !! "A" = Some "B".
Proof. split; [nonneg_here|by vm_compute]. Qed.

(** C8, as stated, fails: the distance recorded for [C] is not the
    sentinel, and it is [INT_MIN], while the weights along the path that
    [reconstruct_path] returns sum to [INT_MAX + 1]. *)
Lemma C8_counterexample :
  nonneg_weights graph_wrap_chain ∧
  (dijkstra_shortest_path graph_wrap_chain "A").1 !! "C" = Some (-2147483648) ∧
  (dijkstra_shortest_path graph_wrap_chain "A").1 !! "B" = Some 2147483646 ∧
  (dijkstra_shortest_path graph_wrap_chain "A").2 !! "C" = Some "B" ∧
  edge graph_wrap_chain "B" "C" 2 ∧
  int_add 2147483646 2 = -2147483648 ∧
  reconstruct_path (dijkstra_shortest_path graph_wrap_chain "A").2 "A" "C"
    = Returns ["A"; "B"; "C"] ∧
  path graph_wrap_chain "A" ["A"; "B"; "C"] "C" 2147483648.
Proof.
  split; [nonneg_here|]. do 3 (split; [by vm_compute|]).
  split; [edge_here|]. do 2 (split; [by vm_compute|]).
  apply (path_snoc _ _ ["A"; "B"] "B" "C" 2 2147483646); [|edge_here|done..].
  apply (path_snoc _ _ ["A"] "A" "B" 2147483646 0); [constructor|edge_here|done..].
Qed.

(** C10, as stated, fails: after the wrap [A] and [B] are each other's
    predecessor, and the walk from [A] towards a start node that is not on
    the cycle never ends. *)
Lemma C10_counterexample :
  nonneg_weights graph_wrap_cycle ∧
  (∀ n, reconstruct_loop n (dijkstra_shortest_path graph_wrap_cycle "A").2
          "Z" "A" [] = Running) ∧
  reconstruct_path (dijkstra_shortest_path graph_wrap_cycle "A").2 "Z" "A"
    = Running.
Proof.
  split; [nonneg_here|]. split; [|by vm_compute].
  pose (pr := (dijkstra_shortest_path graph_wrap_cycle "A").2).
  assert (HA : pr !! "A" = Some "B") by (by vm_compute).
  assert (HB : pr !! "B" = Some "A") by (by vm_compute).
  change (∀ n, reconstruct_loop n pr "Z" "A" [] = Running).
  clearbody pr.
  assert (H : ∀ n acc, reconstruct_loop n pr "Z" "A" acc = Running ∧
                       reconstruct_loop n pr "Z" "B" acc = Running).
  { induction n as [|n IH]; intros acc; [done|].
    rewrite !reconstruct_loop_unfold by done. rewrite HA, HB.
    split; apply IH. }
  intros n. apply H.
Qed.

(** ** The sample graph *)

Lemma sample_path_A : path sample_graph "A" ["A"] "A" 0.
Proof. constructor. Qed.

Lemma sample_path_C : path sample_graph "A" ["A"; "C"] "C" 9.
Proof.
  apply (path_snoc _ _ ["A"] "A" "C" 9 0); [apply sample_path_A|edge_here|done..].
Qed.

Lemma sample_path_D : path sample_graph "A" ["A"; "C"; "D"] "D" 20.
Proof.
  apply (path_snoc _ _ ["A"; "C"] "C" "D" 11 9); [apply sample_path_C|edge_here|done..].
Qed.

Lemma sample_nonneg : nonneg_weights sample_graph.
Proof. nonneg_here. Qed.

Lemma sample_below_sentinel : below_sentinel sample_graph "A".
Proof. by apply small_weights_below_sentinel. Qed.

Lemma sample_no_overflow : no_overflow sample_graph "A".
Proof. apply below_sentinel_no_overflow, sample_below_sentinel. Qed.

Lemma sample_key_D : is_key sample_graph "D".
Proof. by eexists. Qed.

Lemma sample_reachable_D : reachable sample_graph "A" "D".
Proof. eexists _, _. apply sample_path_D. Qed.

(** C9. On the sample graph of [main], from [A], the distances are A=0,
    B=7, C=9, D=20, E=20, F=11 and nothing else, and the path to [D] is
    A, C, D, of total weight 20. *)
Theorem C9_sample_graph :
  (dijkstra_shortest_path sample_graph "A").1 =
    list_to_map [("A", 0); ("B", 7); ("C", 9); ("D", 20); ("E", 20); ("F", 11)] ∧
  reconstruct_path (dijkstra_shortest_path sample_graph "A").2 "A" "D"
    = Returns ["A"; "C"; "D"] ∧
  path sample_graph "A" ["A"; "C"; "D"] "D" 20 ∧
  (dijkstra_shortest_path sample_graph "A").1 !! "D" = Some 20.
Proof.
  split; [by vm_compute|]. split; [by vm_compute|].
  split; [apply sample_path_D|by vm_compute].
Qed.

Lemma sample_no_overflow_Z : no_overflow sample_graph "Z".
Proof. by apply small_weights_no_overflow. Qed.

(** ** A cycle of weight 0 *)

Lemma zero_cycle_nonneg : nonneg_weights graph_zero_cycle.
Proof. nonneg_here. Qed.

Lemma zero_cycle_no_overflow : no_overflow graph_zero_cycle "A".
Proof. by apply small_weights_no_overflow. Qed.

(** Along an edge of weight 0 the predecessor is recorded at the same
    distance as its successor, not at a smaller one. *)
Lemma zero_cycle_same_distance :
  (dijkstra_shortest_path graph_zero_cycle "A").2 !! "B" = Some "A" ∧
  (dijkstra_shortest_path graph_zero_cycle "A").1 !! "A" = Some 0 ∧
  (dijkstra_shortest_path graph_zero_cycle "A").1 !! "B" = Some 0.
Proof. repeat split; by vm_compute. Qed.

Lemma broken_chain_dead_end : dead_end broken_chain "A" "B".
Proof.
  apply (dead_next _ _ "B" "C"); [done|by vm_compute|].
  apply dead_here; [done|by vm_compute].
Qed.

(** The walk stops at the start node: what lies behind it, here the node
    [Y] without entry, is never looked at. *)
Lemma walk_stops_at_start :
  reconstruct_path chain_through_start "S" "T" = Returns ["S"; "T"].
Proof. by vm_compute. Qed.

(** ** The theorems at concrete inputs *)

Lemma C1_witness :
  nonneg_weights sample_graph ∧ no_overflow sample_graph "A" ∧
  (is_key sample_graph "D" ∨ "D" = "A") ∧ reachable sample_graph "A" "D" ∧
  ∃ d, (dijkstra_shortest_path sample_graph "A").1 !! "D" = Some d ∧
       shortest sample_graph "A" "D" d.
Proof.
  exact (conj sample_nonneg (conj sample_no_overflow
    (conj (or_introl sample_key_D) (conj sample_reachable_D
      (C1_recorded_distance_is_shortest sample_graph "A" "D"
         sample_nonneg sample_no_overflow
         (or_introl sample_key_D) sample_reachable_D))))).
Defined.

Lemma C2_witness :
  nonneg_weights sample_graph ∧ no_overflow sample_graph "Z" ∧
  (dijkstra_shortest_path sample_graph "Z").1 !! "Z" = Some 0.
Proof.
  exact (conj sample_nonneg (conj sample_no_overflow_Z
    (C2_start_distance_zero sample_graph "Z" sample_nonneg sample_no_overflow_Z))).
Defined.

Lemma C4_witness :
  nonneg_weights sample_graph ∧ below_sentinel sample_graph "A" ∧
  (is_key sample_graph "D" ∨ "D" = "A") ∧ reachable sample_graph "A" "D" ∧
  ∃ p d,
    reconstruct_path (dijkstra_shortest_path sample_graph "A").2 "A" "D"
      = Returns p ∧
    (dijkstra_shortest_path sample_graph "A").1 !! "D" = Some d ∧
    head p = Some "A" ∧ last p = Some "D" ∧ route sample_graph p d ∧
    path sample_graph "A" p "D" d.
Proof.
  exact (conj sample_nonneg (conj sample_below_sentinel
    (conj (or_introl sample_key_D) (conj sample_reachable_D
      (C4_reconstructed_path sample_graph "A" "D"
         sample_nonneg sample_below_sentinel
         (or_introl sample_key_D) sample_reachable_D))))).
Defined.

Lemma C5_witness :
  dead_end broken_chain "A" "B" ∧
  reconstruct_path broken_chain "A" "B" = Returns [].
Proof.
  exact (conj broken_chain_dead_end
    (C5_dead_end_returns_empty broken_chain "A" "B" broken_chain_dead_end)).
Defined.

Lemma C7_witness :
  nonneg_weights graph_zero_cycle ∧ no_overflow graph_zero_cycle "A" ∧
  (dijkstra_shortest_path graph_zero_cycle "A").2 !! "A" = None.
Proof.
  exact (conj zero_cycle_nonneg (conj zero_cycle_no_overflow
    (C7_start_has_no_predecessor graph_zero_cycle "A"
       zero_cycle_nonneg zero_cycle_no_overflow))).
Defined.

Lemma C8_witness :
  nonneg_weights sample_graph ∧ no_overflow sample_graph "A" ∧
  (∀ v x, (dijkstra_shortest_path sample_graph "A").2 !! v = Some x →
     ∃ dx dv w, edge sample_graph x v w ∧
       (dijkstra_shortest_path sample_graph "A").1 !! x = Some dx ∧
       (dijkstra_shortest_path sample_graph "A").1 !! v = Some dv ∧
       dv = int_add dx w ∧ int_add dx w = dx + w ∧ dv < INT_MAX) ∧
  (∀ v d, (dijkstra_shortest_path sample_graph "A").1 !! v = Some d →
     d ≠ INT_MAX → is_key sample_graph v ∨ v = "A" →
     0 <= d < INT_MAX ∧
     ∃ p, reconstruct_path (dijkstra_shortest_path sample_graph "A").2 "A" v
            = Returns p ∧
          path sample_graph "A" p v d).
Proof.
  exact (conj sample_nonneg (conj sample_no_overflow
    (C8_additions_are_exact sample_graph "A" sample_nonneg sample_no_overflow))).
Defined.

Lemma C10_witness :
  nonneg_weights graph_zero_cycle ∧ no_overflow graph_zero_cycle "A" ∧
  (∀ v x, (dijkstra_shortest_path graph_zero_cycle "A").2 !! v = Some x →
     ∃ dx dv, (dijkstra_shortest_path graph_zero_cycle "A").1 !! x = Some dx ∧
              (dijkstra_shortest_path graph_zero_cycle "A").1 !! v = Some dv ∧
              dx <= dv) ∧
  well_founded
    (fun x v => (dijkstra_shortest_path graph_zero_cycle "A").2 !! v = Some x) ∧
  ∀ start_node target_node,
    ∃ r, reconstruct_path (dijkstra_shortest_path graph_zero_cycle "A").2
           start_node target_node = Returns r.
Proof.
  exact (conj zero_cycle_nonneg (conj zero_cycle_no_overflow
    (C10_reconstruct_terminates graph_zero_cycle "A"
       zero_cycle_nonneg zero_cycle_no_overflow))).
Defined.

(** ** The main loop as an iteration of its body *)

Lemma main_loop_succ g n st :
  main_loop g (S n) st =
    match pq st with
    | [] => st
    | _ :: _ => main_loop g n (main_loop g n st)
    end.
Proof. reflexivity. Qed.


Lemma step_done g st : pq st = [] → step g st = st.
Proof. intros H. unfold step. by rewrite H. Qed.

Lemma main_loop_iter g n st : ∃ k, main_loop g n st = Nat.iter k (step g) st.
Proof.
  revert st. induction n as [|n IH]; intros st.
  - destruct (pq st) eqn:Hq.
    + exists O. by apply main_loop_done.
    + exists 1%nat. unfold main_loop. by rewrite Hq.
  - rewrite main_loop_succ. destruct (pq st) eqn:Hq; [by exists O|].
    destruct (IH st) as [k1 ->].
    destruct (IH (Nat.iter k1 (step g) st)) as [k2 ->].
    exists (k2 + k1)%nat. by rewrite Nat.iter_add.
Qed.

(** ** What the main loop keeps whatever the weights *)

Lemma map_index_is_Some d k v :
  is_Some ((map_index d k).2 !! v) ↔ is_Some (d !! v) ∨ v = k.
Proof.
  destruct (decide (v = k)) as [->|Hne].
  - rewrite map_index_lookup. split; [by right|by eexists].
  - rewrite map_index_lookup_ne by done. split; [by left|]. by intros [?|?].
Qed.

Lemma init_distances_is_key g v x :
  init_distances g !! v = Some x → is_key g v.
Proof.
  unfold init_distances, is_key.
  assert (H : ∀ d : Distances, (is_Some (d !! v) → is_Some (graph_find g v)) →
    is_Some (fold_left (fun d pair => <[pair.1 := INT_MAX]> d) g d !! v) →
    is_Some (graph_find g v)).
  { induction g as [|[k a] g IH]; intros d Hd; simpl in *; [apply Hd|].
    destruct (String.eqb_spec k v) as [->|Hne]; [intros _; by eexists|].
    apply IH. by rewrite lookup_insert_ne. }
  intros Hx. apply (H ∅); [|by eexists].
  rewrite lookup_empty. by intros [? ?].
Qed.

Section Shape.
Variable g : Graph.
Variable s : string.

Lemma shape_index st k :
  reachable g s k → shape_inv g s st →
  shape_inv g s {| distances := (map_index (distances st) k).2;
                   predecessors := predecessors st; pq := pq st |}.
Proof.
  intros Hk [H1 H2 H3 H4 H5]. constructor; simpl; try done.
  - apply map_index_is_Some. by left.
  - intros v Hv. apply map_index_is_Some. left. by apply H2.
  - intros v [Hv| ->]%map_index_is_Some; [by apply H3|by right].
  - intros v x Hx. destruct (H5 v x Hx) as (He & Hrx & Hrv & Hdx & Hdv).
    repeat split; try done; apply map_index_is_Some; by left.
Qed.

Lemma shape_relax u du st e :
  reachable g s u → edge g u e.1 e.2 → is_Some (distances st !! u) →
  shape_inv g s st →
  shape_inv g s (relax u du st e) ∧
  is_Some (distances (relax u du st e) !! u).
Proof.
  intros Hu He Hdu Hinv. pose proof (reachable_edge _ _ _ _ _ Hu He) as Hv.
  pose proof (shape_index st e.1 Hv Hinv) as [H1 H2 H3 H4 H5].
  assert (Hu1 : is_Some ((map_index (distances st) e.1).2 !! u))
    by (apply map_index_is_Some; by left).
  unfold relax. destruct (map_index (distances st) e.1) as [dn d1]. simpl in *.
  assert (Hins : ∀ x y, is_Some (d1 !! y) → is_Some (<[e.1 := x]> d1 !! y)).
  { intros x y Hy. destruct (decide (y = e.1)) as [->|Hne].
    - rewrite lookup_insert_eq. by eexists.
    - by rewrite lookup_insert_ne. }
  destruct (int_add du e.2 <? dn); [|by split].
  split; [|by apply Hins]. constructor; simpl.
  - by apply Hins.
  - intros k Hk. by apply Hins, H2.
  - intros v. destruct (decide (v = e.1)) as [->|Hne]; [by right|].
    rewrite lookup_insert_ne by done. apply H3.
  - intros d v [[= -> ->]|Hin]%elem_of_cons; [done|by eapply H4].
  - intros v x. destruct (decide (v = e.1)) as [->|Hne].
    + rewrite lookup_insert_eq. intros [= <-].
      split; [by exists e.2|]. split; [done|]. split; [done|].
      split; [by apply Hins|]. rewrite lookup_insert_eq. by eexists.
    + rewrite lookup_insert_ne by done. intros Hx.
      destruct (H5 v x Hx) as (He' & Hrx & Hrv & Hdx & Hdv).
      repeat split; try done; by apply Hins.
Qed.

Lemma shape_fold u du adj st :
  reachable g s u → (∀ e, e ∈ adj → edge g u e.1 e.2) →
  is_Some (distances st !! u) → shape_inv g s st →
  shape_inv g s (fold_left (relax u du) adj st).
Proof.
  intros Hu. revert st.
  induction adj as [|e adj IH]; intros st Hadj Hdu Hinv; [done|].
  destruct (shape_relax u du st e) as [Hinv' Hdu']; try done.
  { apply Hadj, list_elem_of_here. }
  simpl. apply IH; try done.
  intros e' He'. apply Hadj. by apply list_elem_of_further.
Qed.

Lemma shape_step st : shape_inv g s st → shape_inv g s (step g st).
Proof.
  intros Hinv. unfold step.
  destruct (pq_top (pq st)) as [[d u]|] eqn:Htop; [|done].
  pose proof (sh_pq _ _ _ Hinv d u (pq_top_elem _ _ Htop)) as Hu.
  pose proof (shape_index st u Hu Hinv) as Hinv1.
  pose proof (map_index_lookup (distances st) u) as Hdu.
  destruct (map_index (distances st) u) as [dc d1]. simpl in Hinv1, Hdu.
  assert (Hinv2 : shape_inv g s {| distances := d1;
            predecessors := predecessors st; pq := pq_pop (pq st) |}).
  { destruct Hinv1 as [H1 H2 H3 H4 H5]. constructor; simpl in *; try done.
    intros d' v Hin. apply (H4 d'). by apply pq_pop_elem. }
  destruct (dc <? d); [done|].
  destruct (graph_find g u) as [adj|] eqn:Hf; [|done].
  apply shape_fold; [done| |simpl; by eexists|done].
  intros [v w] Hin. by exists adj.
Qed.

Lemma shape_init : shape_inv g s (init g s).
Proof.
  constructor; simpl.
  - rewrite lookup_insert_eq. by eexists.
  - intros k Hk. destruct (decide (k = s)) as [->|Hne].
    + rewrite lookup_insert_eq. by eexists.
    + rewrite lookup_insert_ne by done. rewrite init_distances_keys by done.
      by eexists.
  - intros v. destruct (decide (v = s)) as [->|Hne].
    + intros _. right. apply reachable_start.
    + rewrite lookup_insert_ne by done. intros [x Hx]. left.
      by eapply init_distances_is_key.
  - intros d v [= -> ->]%list_elem_of_singleton. apply reachable_start.
  - intros v x. by rewrite lookup_empty.
Qed.

Lemma shape_final : shape_inv g s (final g s).
Proof.
  unfold final. apply (main_loop_invariant (shape_inv g s) g).
  - intros st Hinv _. by apply shape_step.
  - apply shape_init.
Qed.
End Shape.

(** ** Nodes that are no keys *)

Section Sink.
Variable g : Graph.
Variable s : string.

Lemma sink_index st k :
  sink_inv g s st →
  sink_inv g s {| distances := (map_index (distances st) k).2;
                  predecessors := predecessors st; pq := pq st |}.
Proof.
  intros [H1 H2 H3]. constructor; simpl; [| |done].
  - destruct (decide (s = k)) as [<-|Hne].
    + rewrite map_index_lookup. unfold value. by rewrite H1.
    + by rewrite map_index_lookup_ne.
  - intros v d. destruct (decide (v = k)) as [->|Hne].
    + rewrite map_index_lookup. unfold value.
      destruct (distances st !! k) as [x|] eqn:E; simpl; intros [= <-]; [|done].
      by apply H2.
    + rewrite map_index_lookup_ne by done. apply H2.
Qed.

(** A relaxation that computes a non-negative distance changes nothing at
    the start node and at the nodes that are no keys. *)
Lemma sink_relax u du st e :
  0 <= int_add du e.2 → sink_inv g s st → sink_inv g s (relax u du st e).
Proof.
  intros Hnew Hinv. pose proof (sink_index st e.1 Hinv) as [H1 H2 H3].
  pose proof (map_index_value (distances st) e.1) as Hv.
  pose proof (map_index_lookup (distances st) e.1) as Hl.
  unfold relax. destruct (map_index (distances st) e.1) as [dn d1].
  simpl in *. subst dn.
  destruct (int_add du e.2 <? value (distances st) e.1) eqn:Hlt; [|done].
  apply Z.ltb_lt in Hlt.
  assert (Hvs : e.1 ≠ s).
  { intros Heq. rewrite Heq in Hl, Hlt. rewrite H1 in Hl. injection Hl as Hl. lia. }
  assert (Hk : is_key g e.1).
  { destruct (decide (is_key g e.1)) as [?|Hnk]; [done|].
    pose proof (H2 _ _ Hl Hnk Hvs). lia. }
  constructor; simpl.
  - by rewrite lookup_insert_ne.
  - intros v d. destruct (decide (v = e.1)) as [->|Hne]; [done|].
    rewrite lookup_insert_ne by done. apply H2.
  - intros v x. destruct (decide (v = e.1)) as [->|Hne]; [done|].
    rewrite lookup_insert_ne by done. apply H3.
Qed.

Lemma sink_fold u du adj st :
  (∀ e, e ∈ adj → 0 <= int_add du e.2) → sink_inv g s st →
  sink_inv g s (fold_left (relax u du) adj st).
Proof.
  revert st. induction adj as [|e adj IH]; intros st Hadj Hinv; [done|].
  simpl. apply IH.
  - intros e' He'. apply Hadj. by apply list_elem_of_further.
  - apply sink_relax; [|done]. apply Hadj, list_elem_of_here.
Qed.

Lemma sink_init : sink_inv g s (init g s).
Proof.
  constructor; simpl.
  - apply lookup_insert_eq.
  - intros v d Hd Hnk Hne. rewrite lookup_insert_ne in Hd by done.
    destruct Hnk. by eapply init_distances_is_key.
  - intros v x. by rewrite lookup_empty.
Qed.

Hypothesis Hnn : nonneg_weights g.
Hypothesis Hov : no_overflow g s.

Lemma sink_step u0 d0 st :
  inv g s u0 d0 [] st → sink_inv g s st → sink_inv g s (step g st).
Proof.
  intros Hinv Hsink. unfold step.
  destruct (pq_top (pq st)) as [[d u]|] eqn:Htop; [|done].
  destruct (inv_pq _ _ _ _ _ _ Hinv d u (pq_top_elem _ _ Htop))
    as [Hp (dc & Hdc & Hle)].
  rewrite (map_index_Some _ _ _ Hdc).
  assert (Hsink1 : sink_inv g s {| distances := distances st;
            predecessors := predecessors st; pq := pq_pop (pq st) |}).
  { by destruct Hsink. }
  destruct (dc <? d) eqn:Hstale; [done|]. apply Z.ltb_ge in Hstale.
  destruct (graph_find g u) as [adj|] eqn:Hf; [|done].
  apply sink_fold; [|done]. intros [v w] Hin. simpl.
  assert (Hsh : shortest g s u d) by (eapply top_shortest; done).
  destruct (relax_no_wrap g s Hnn Hov u d Hsh v w) as (? & ? & _ & ->);
    [by exists adj|lia].
Qed.

Lemma sink_final : sink_inv g s (final g s).
Proof.
  assert (H : (∃ u d, inv g s u d [] (final g s)) ∧ sink_inv g s (final g s));
    [|apply H].
  unfold final.
  apply (main_loop_invariant
           (fun st => (∃ u d, inv g s u d [] st) ∧ sink_inv g s st) g).
  - intros st [(u & d & Hinv) Hsink] Hne.
    split; [by eapply inv_step|by eapply sink_step].
  - split; [exists s, 0; by apply inv_init|apply sink_init].
Qed.
End Sink.

(** ** What reconstruct_path returns *)

Section Follows.
Variable predecessors : Predecessors.
Variable start_node : string.

Lemma follows_nonempty p c : follows predecessors start_node p c → p ≠ [].
Proof. destruct 1; [done|]. by destruct p. Qed.

Lemma follows_head_last p c :
  follows predecessors start_node p c →
  head p = Some start_node ∧ last p = Some c.
Proof.
  induction 1 as [|p x c Hp [IH1 IH2] Hne Hc]; [done|]. split.
  - by destruct p.
  - by rewrite last_snoc.
Qed.

Lemma follows_length p c :
  follows predecessors start_node p c → (1 <= length p)%nat.
Proof. intros H%follows_nonempty. destruct p; [done|simpl; lia]. Qed.

Lemma follows_ends p c :
  follows predecessors start_node p c →
  ends predecessors start_node (length p - 1) c.
Proof.
  induction 1 as [|p x c Hp IH Hne Hc]; [constructor|].
  pose proof (follows_length _ _ Hp). rewrite length_app. simpl.
  replace (length p + 1 - 1)%nat with (S (length p - 1)) by lia.
  by eapply ends_step.
Qed.

Lemma follows_elem p c y :
  follows predecessors start_node p c → y ∈ p →
  ∃ p1, follows predecessors start_node p1 y ∧ (length p1 <= length p)%nat.
Proof.
  induction 1 as [|p x c Hp IH Hne Hc]; intros Hy.
  - apply list_elem_of_singleton in Hy as ->. exists [start_node].
    split; [constructor|done].
  - apply elem_of_app in Hy as [Hy|Hy].
    + destruct (IH Hy) as (p1 & Hp1 & Hle). exists p1.
      split; [done|]. rewrite length_app. lia.
    + apply list_elem_of_singleton in Hy as ->. exists (p ++ [c]).
      split; [by eapply follows_step|done].
Qed.

(** The walk does not visit a node twice. *)
Lemma follows_NoDup p c : follows predecessors start_node p c → NoDup p.
Proof.
  induction 1 as [|p x c Hp IH Hne Hc]; [apply NoDup_singleton|].
  apply NoDup_app. split; [done|]. split; [|apply NoDup_singleton].
  intros y Hy ->%list_elem_of_singleton.
  destruct (follows_elem _ _ _ Hp Hy) as (p1 & Hp1 & Hle).
  pose proof (follows_ends _ _ Hp1) as He1.
  pose proof (follows_ends _ _ (follows_step _ _ _ _ _ Hp Hne Hc)) as He2.
  pose proof (ends_unique _ _ _ _ He1 _ He2) as Heq.
  pose proof (follows_length _ _ Hp1). rewrite length_app in Heq. simpl in Heq. lia.
Qed.

(** Each node of the sequence is the recorded predecessor of the next. *)
Lemma follows_lookup p c :
  follows predecessors start_node p c →
  ∀ i a b, p !! i = Some a → p !! S i = Some b →
    predecessors !! b = Some a.
Proof.
  induction 1 as [|p x c Hp IH Hne Hc]; intros i a b Ha Hb.
  - by destruct i.
  - destruct (follows_head_last _ _ Hp) as [_ Hl].
    destruct (decide (S i < length p)%nat) as [Hlt|Hge].
    + rewrite lookup_app_l in Ha by lia. rewrite lookup_app_l in Hb by lia.
      by eapply IH.
    + assert (Hi : S i = length p).
      { apply lookup_lt_Some in Hb. rewrite length_app in Hb. simpl in Hb. lia. }
      rewrite lookup_app_l in Ha by lia.
      rewrite lookup_app_r in Hb by lia.
      rewrite Hi, Nat.sub_diag in Hb. injection Hb as <-.
      rewrite last_lookup in Hl.
      replace (Nat.pred (length p)) with i in Hl by lia. congruence.
Qed.

(** What the loop returns: nothing, at a dead end, or the walk reversed. *)
Lemma returns_follows n c acc r :
  reconstruct_loop n predecessors start_node c acc = Returns r →
  (r = [] ∧ dead_end predecessors start_node c) ∨
  (∃ p, follows predecessors start_node p c ∧ r = p ++ rev acc).
Proof.
  revert c acc. induction n as [|n IH]; intros c acc.
  - simpl. destruct (String.eqb_spec c start_node) as [->|Hne]; [|done].
    intros [= <-]. right. exists [start_node].
    split; [constructor|]. by rewrite rev_app_distr.
  - destruct (decide (c = start_node)) as [->|Hne].
    + rewrite reconstruct_loop_at_start. intros [= <-]. right.
      exists [start_node]. split; [constructor|]. by rewrite rev_app_distr.
    + rewrite reconstruct_loop_unfold by done.
      destruct (predecessors !! c) as [x|] eqn:Hc.
      * intros [[-> Hd]|(p & Hp & ->)]%IH.
        -- left. split; [done|]. by eapply dead_next.
        -- right. exists (p ++ [c]). split; [by eapply follows_step|].
           by rewrite rev_app_distr, <- app_assoc.
      * intros [= <-]. left. split; [done|]. by apply dead_here.
Qed.
End Follows.

(** ** Further properties of dijkstra_shortest_path *)

Lemma main_loop_one g n st :
  pq st ≠ [] → pq (step g st) = [] → main_loop g n st = step g st.
Proof.
  intros Hne Hdone. induction n as [|n IH].
  - unfold main_loop. by destruct (pq st).
  - rewrite main_loop_succ. destruct (pq st) eqn:Hq; [done|].
    rewrite IH. by apply main_loop_done.
Qed.

Lemma inv_iter g s k :
  nonneg_weights g → no_overflow g s →
  ∃ u d, inv g s u d [] (Nat.iter k (step g) (init g s)).
Proof.
  intros Hnn Hov. induction k as [|k (u & d & IH)].
  - exists s, 0. by apply inv_init.
  - simpl. destruct (pq (Nat.iter k (step g) (init g s))) eqn:Hq.
    + rewrite step_done by done. by exists u, d.
    + eapply inv_step; [done..|]. by rewrite Hq.
Qed.


(** X2. When the start node has no outgoing edge, because it is no key of
    the graph or because its neighbour map is empty, the function returns
    the initial distance map (the sentinel for every key, 0 for the start
    node) and an empty predecessor map. *)
Theorem dijkstra_start_without_edges g s :
  graph_find g s = None ∨ graph_find g s = Some [] →
  dijkstra_shortest_path g s = (<[s := 0]> (init_distances g), ∅).
Proof.
  intros Hs. rewrite dijkstra_final. unfold final.
  assert (Hstep : step g (init g s) =
    {| distances := <[s := 0]> (init_distances g); predecessors := ∅; pq := [] |}).
  { unfold step, init, pq_push. simpl pq. simpl pq_top. cbv beta iota.
    simpl distances. simpl predecessors.
    rewrite (map_index_Some _ _ 0) by apply lookup_insert_eq.
    set (q := pq_pop _).
    assert (Hpop : q = []).
    { unfold q, pq_pop. simpl. unfold state_eqb. simpl. by rewrite String.eqb_refl. }
    rewrite Hpop. change (0 <? 0) with false. cbv iota.
    by destruct Hs as [-> | ->]. }
  rewrite main_loop_one; rewrite ?Hstep; done.
Qed.

(** X3. Whatever the weights, every key of the graph and the start node
    have an entry in the returned distance map, and every node that has an
    entry is a key or is reachable from the start node. *)
Theorem distance_map_domain g s v :
  (is_key g v ∨ v = s → is_Some ((dijkstra_shortest_path g s).1 !! v)) ∧
  (is_Some ((dijkstra_shortest_path g s).1 !! v) →
   is_key g v ∨ reachable g s v).
Proof.
  rewrite dijkstra_final. unfold fst.
  pose proof (shape_final g s) as [H1 H2 H3 H4 H5]. split.
  - intros [Hk| ->]; [by apply H2|done].
  - apply H3.
Qed.

(** X4. Whatever the weights, a predecessor entry is an edge of the graph
    between two nodes that are reachable from the start node and have an
    entry in the distance map. *)
Theorem predecessor_entries_are_edges g s v x :
  (dijkstra_shortest_path g s).2 !! v = Some x →
  (∃ w, edge g x v w) ∧ reachable g s x ∧ reachable g s v ∧
  is_Some ((dijkstra_shortest_path g s).1 !! x) ∧
  is_Some ((dijkstra_shortest_path g s).1 !! v).
Proof.
  rewrite dijkstra_final. unfold fst, snd.
  apply (sh_pred _ _ _ (shape_final g s)).
Qed.

(** X5. Whatever the weights, a node that the start node does not reach
    gets no predecessor; it keeps the sentinel when it is a key of the
    graph, and has no entry in the distance map when it is not. *)
Theorem unreachable_nodes g s v :
  ¬ reachable g s v →
  (dijkstra_shortest_path g s).2 !! v = None ∧
  (is_key g v → (dijkstra_shortest_path g s).1 !! v = Some INT_MAX) ∧
  (¬ is_key g v → (dijkstra_shortest_path g s).1 !! v = None).
Proof.
  intros Hnr. split; [by apply unreachable_no_predecessor|]. split.
  - intros Hk. by apply unreachable_key_sentinel.
  - intros Hnk. rewrite dijkstra_final. unfold fst.
    destruct (distances (final g s) !! v) as [d|] eqn:E; [|done].
    assert (Hs : is_Some (distances (final g s) !! v)) by (by eexists).
    by destruct (sh_dom _ _ _ (shape_final g s) v Hs).
Qed.

(** X13. The greedy invariant. With non-negative weights and no overflow,
    at every iteration of the main loop, the entry taken from the queue, if
    it passes the test for stale entries, carries the shortest distance of
    its node. *)
Theorem extraction_is_shortest g s k d u :
  nonneg_weights g → no_overflow g s →
  pq_top (pq (Nat.iter k (step g) (init g s))) = Some (d, u) →
  ((map_index (distances (Nat.iter k (step g) (init g s))) u).1 <? d) = false →
  shortest g s u d.
Proof.
  intros Hnn Hov Htop Hfresh.
  destruct (inv_iter g s k Hnn Hov) as (u0 & d0 & Hinv).
  destruct (inv_pq _ _ _ _ _ _ Hinv d u (pq_top_elem _ _ Htop))
    as [_ (dc & Hdc & _)].
  rewrite (map_index_Some _ _ _ Hdc) in Hfresh. simpl in Hfresh.
  apply Z.ltb_ge in Hfresh. by eapply top_shortest.
Qed.

Section Derived.
Variable g : Graph.
Variable s : string.
Hypothesis Hnn : nonneg_weights g.
Hypothesis Hbs : below_sentinel g s.

Local Abbreviation dist := (distances (final g s)).
Local Abbreviation pred := (predecessors (final g s)).

Lemma reached_below_sentinel v :
  reachable g s v → ∃ d, dist !! v = Some d ∧ d < INT_MAX.
Proof.
  intros (p & W & Hp).
  destruct (final_reached g s Hnn (below_sentinel_no_overflow g s Hbs) p v W Hbs Hp)
    as (d & Hd & _ & Hlt).
  by exists d.
Qed.

Lemma pred_iff v :
  is_Some (pred !! v) ↔ is_key g v ∧ v ≠ s ∧ reachable g s v.
Proof.
  pose proof (below_sentinel_no_overflow g s Hbs) as Hov. split.
  - intros [x Hx].
    destruct (sk_pred _ _ _ (sink_final g s Hnn Hov) v x Hx) as [Hk Hne].
    split; [done|]. split; [done|].
    by destruct (sh_pred _ _ _ (shape_final g s) v x Hx) as (_ & _ & ? & _).
  - intros (Hk & Hne & Hr).
    destruct (reached_below_sentinel v Hr) as (d & Hd & Hlt).
    destruct (final_inv g s Hnn Hov) as (u & du & Hinv).
    exact (inv_has_pred _ _ _ _ _ _ Hinv v d Hd Hlt Hk Hne).
Qed.

Lemma reconstruct_no_entry (predecessors : Predecessors) start_node t :
  t ≠ start_node → predecessors !! t = None →
  reconstruct_path predecessors start_node t = Returns [].
Proof.
  intros Hne Ht.
  destruct (dead_end_returns start_node predecessors t (dead_here _ _ _ Hne Ht) [])
    as [n Hn].
  by eapply reconstruct_loop_enough.
Qed.

Lemma reconstruct_reached t :
  is_key g t ∨ t = s → reachable g s t →
  ∃ p d, reconstruct_path pred s t = Returns p ∧ dist !! t = Some d ∧
         d < INT_MAX ∧ path g s p t d.
Proof.
  intros Ht Hr. pose proof (below_sentinel_no_overflow g s Hbs) as Hov.
  destruct (reached_below_sentinel t Hr) as (d & Hd & Hlt).
  destruct (final_walk g s Hnn Hov t d Hd Hlt Ht) as (p & Hp & Hloop).
  destruct (Hloop []) as [n Hn]. simpl rev in Hn. rewrite app_nil_r in Hn.
  exists p, d. split; [by eapply reconstruct_loop_enough|]. by repeat split.
Qed.
End Derived.

(** X6. With non-negative weights and every sum below the sentinel, the
    sentinel marks exactly the keys that the start node does not reach. *)
Theorem sentinel_iff_unreachable g s v :
  nonneg_weights g → below_sentinel g s → is_key g v →
  ((dijkstra_shortest_path g s).1 !! v = Some INT_MAX ↔ ¬ reachable g s v).
Proof.
  intros Hnn Hbs Hk. split.
  - rewrite dijkstra_final. unfold fst. intros Hv Hr.
    destruct (reached_below_sentinel g s Hnn Hbs v Hr) as (d & Hd & Hlt).
    rewrite Hv in Hd. injection Hd as <-. lia.
  - intros Hnr. by apply unreachable_key_sentinel.
Qed.

(** X7. With non-negative weights and every sum below the sentinel, the
    nodes that have a predecessor entry are exactly the keys of the graph,
    other than the start node, that the start node reaches. *)
Theorem predecessor_iff_reachable_key g s v :
  nonneg_weights g → below_sentinel g s →
  (is_Some ((dijkstra_shortest_path g s).2 !! v) ↔
   is_key g v ∧ v ≠ s ∧ reachable g s v).
Proof.
  intros Hnn Hbs. rewrite dijkstra_final. unfold snd. by apply pred_iff.
Qed.

(** X8. With non-negative weights and every sum below the sentinel, a
    reachable node that is no key of the graph (it only appears as a
    neighbour) and is not the start node is recorded at distance 0, whatever
    its real distance, gets no predecessor, and [reconstruct_path] returns
    the empty sequence for it. *)
Theorem neighbor_only_node_gets_zero g s v :
  nonneg_weights g → below_sentinel g s →
  ¬ is_key g v → v ≠ s → reachable g s v →
  (dijkstra_shortest_path g s).1 !! v = Some 0 ∧
  (dijkstra_shortest_path g s).2 !! v = None ∧
  reconstruct_path (dijkstra_shortest_path g s).2 s v = Returns [].
Proof.
  intros Hnn Hbs Hnk Hne Hr. rewrite dijkstra_final. unfold fst, snd.
  pose proof (below_sentinel_no_overflow g s Hbs) as Hov.
  destruct (reached_below_sentinel g s Hnn Hbs v Hr) as (d & Hd & _).
  assert (Hp : predecessors (final g s) !! v = None).
  { destruct (predecessors (final g s) !! v) as [x|] eqn:E; [|done].
    assert (Hs : is_Some (predecessors (final g s) !! v)) by (by eexists).
    apply (pred_iff g s Hnn Hbs) in Hs as [? _]. done. }
  split; [|split; [done|by apply reconstruct_no_entry]].
  by rewrite (sk_zero _ _ _ (sink_final g s Hnn Hov) v d Hd Hnk Hne) in Hd.
Qed.

(** X12. With non-negative weights and every sum below the sentinel,
    [reconstruct_path] on the returned predecessor map returns the empty
    sequence exactly for the targets, other than the start node, that are
    not both a key of the graph and reachable. *)
Theorem reconstruct_empty_iff g s t :
  nonneg_weights g → below_sentinel g s →
  (reconstruct_path (dijkstra_shortest_path g s).2 s t = Returns [] ↔
   t ≠ s ∧ ¬ (is_key g t ∧ reachable g s t)).
Proof.
  intros Hnn Hbs. rewrite dijkstra_final. unfold snd. split.
  - intros Hempty. split.
    + intros ->. unfold reconstruct_path in Hempty.
      by rewrite reconstruct_loop_at_start in Hempty.
    + intros [Hk Hr].
      destruct (reconstruct_reached g s Hnn Hbs t (or_introl Hk) Hr)
        as (p & d & Hp & _ & _ & Hpath).
      rewrite Hempty in Hp. injection Hp as <-. by inversion Hpath; destruct p.
  - intros [Hne Hnot]. apply reconstruct_no_entry; [done|].
    destruct (predecessors (final g s) !! t) as [x|] eqn:E; [|done].
    assert (Hs : is_Some (predecessors (final g s) !! t)) by (by eexists).
    apply (pred_iff g s Hnn Hbs) in Hs as (? & _ & ?). by destruct Hnot.
Qed.

(** X14. A condition that is computed on the entries of the graph is
    enough: when the weights are non-negative and sum to less than
    [INT_MAX], every reachable key, and the start node, is recorded at its
    shortest distance, below the sentinel, and [reconstruct_path] returns a
    path of the graph of that weight. *)
Theorem small_weights_correct g s t :
  small_weights g = true → is_key g t ∨ t = s → reachable g s t →
  ∃ p d,
    (dijkstra_shortest_path g s).1 !! t = Some d ∧ d < INT_MAX ∧
    shortest g s t d ∧
    reconstruct_path (dijkstra_shortest_path g s).2 s t = Returns p ∧
    path g s p t d.
Proof.
  intros Hsmall Ht Hr. rewrite dijkstra_final. unfold fst, snd.
  pose proof (small_weights_nonneg g Hsmall) as Hnn.
  pose proof (small_weights_below_sentinel g s Hsmall) as Hbs.
  destruct (reconstruct_reached g s Hnn Hbs t Ht Hr) as (p & d & Hp & Hd & Hlt & Hpath).
  exists p, d. split; [done|]. split; [done|]. split; [|by split].
  split; [by eexists|]. intros p' d' Hp'.
  exact (final_le_path g s Hnn (below_sentinel_no_overflow g s Hbs) t d p' d' Hd Hp').
Qed.

(** ** Further properties of reconstruct_path *)

(** X9. [reconstruct_path] never throws, whatever the predecessor map:
    [at] is only reached behind a successful [find]. *)
Theorem reconstruct_path_never_throws (predecessors : Predecessors)
    start_node target_node :
  reconstruct_path predecessors start_node target_node ≠ Throws.
Proof. apply reconstruct_loop_never_throws. Qed.

(** X10. A non-empty sequence returned by [reconstruct_path] begins with
    the start node, ends with the target, repeats no node, and each of its
    nodes is the recorded predecessor of the next. *)
Theorem reconstruct_path_follows (predecessors : Predecessors)
    start_node target_node p :
  reconstruct_path predecessors start_node target_node = Returns p →
  p ≠ [] →
  head p = Some start_node ∧ last p = Some target_node ∧ NoDup p ∧
  ∀ i a b, p !! i = Some a → p !! S i = Some b → predecessors !! b = Some a.
Proof.
  intros Hret Hne.
  apply returns_follows in Hret as [[-> _]|(q & Hq & ->)]; [done|].
  simpl. rewrite app_nil_r.
  destruct (follows_head_last _ _ _ _ Hq) as [Hh Hl].
  repeat split; try done.
  - by eapply follows_NoDup.
  - by eapply follows_lookup.
Qed.

(** X11. [reconstruct_path] returns the empty sequence exactly when the
    backward walk from the target reaches, before the start node, a node
    that has no predecessor entry. *)
Theorem reconstruct_path_empty_iff (predecessors : Predecessors)
    start_node target_node :
  reconstruct_path predecessors start_node target_node = Returns [] ↔
  dead_end predecessors start_node target_node.
Proof.
  split.
  - intros Hret. apply returns_follows in Hret as [[_ Hd]|(q & Hq & Heq)]; [done|].
    apply follows_nonempty in Hq. simpl in Heq. rewrite app_nil_r in Heq. congruence.
  - intros Hd. destruct (dead_end_returns _ _ _ Hd []) as [n Hn].
    by eapply reconstruct_loop_enough.
Qed.

(** ** main *)

Section Driver.
Variable graph : Graph.
Variables START TARGET : string.

Local Abbreviation dist := (distances (final graph START)).
Local Abbreviation pred := (predecessors (final graph START)).

(** The target of a non-empty returned sequence has an entry in the
    distance map: [shortest_distances.at(TARGET)] finds it. *)
Lemma returned_target_has_distance x l :
  reconstruct_path pred START TARGET = Returns (x :: l) →
  is_Some (dist !! TARGET).
Proof.
  intros Hret. pose proof (shape_final graph START) as Hshape.
  apply returns_follows in Hret as [[? _]|(q & Hq & _)]; [done|].
  inversion Hq as [|q' y c Hq' Hne Hc]; subst.
  - apply Hshape.
  - by destruct (sh_pred _ _ _ Hshape TARGET y Hc) as (_ & _ & _ & _ & ?).
Qed.

Lemma main_with_unfold :
  main_with graph START TARGET =
    let out1 :=
      ["--- Running Dijkstra's Algorithm from Node " +:+ START +:+ " ---"] ++
      [""; "Shortest Distances from " +:+ START +:+ ":"] ++
      (distance_line <$> entries dist) in
    match reconstruct_path pred START TARGET with
    | Running => (out1, Running)
    | Throws => (out1, Throws)
    | Returns shortest_path =>
        match shortest_path with
        | [] =>
            (out1 ++ [""; "Node " +:+ TARGET +:+ " is unreachable from " +:+
                          START +:+ "."],
             Returns 0)
        | _ :: _ =>
            match distances_at dist TARGET with
            | Returns distance_to_target =>
                (out1 ++ [""; "Shortest Path to " +:+ TARGET +:+
                              " (Distance: " +:+ pretty distance_to_target +:+ "):";
                          join_arrows shortest_path],
                 Returns 0)
            | Throws => (out1, Throws)
            | Running => (out1, Running)
            end
        end
    end.
Proof. reflexivity. Qed.


Lemma main_with_returned p :
  reconstruct_path pred START TARGET = Returns p →
  (main_with graph START TARGET).2 = Returns 0.
Proof.
  intros E. rewrite main_with_unfold. cbv zeta. rewrite E.
  destruct p as [|x l]; [done|].
  destruct (returned_target_has_distance x l E) as [d Hd].
  unfold distances_at. by rewrite Hd.
Qed.
End Driver.


(** X16. With non-negative weights and no overflow, [main] returns 0,
    whatever the start node and the target. *)
Theorem main_returns_zero graph START TARGET :
  nonneg_weights graph → no_overflow graph START →
  (main_with graph START TARGET).2 = Returns 0.
Proof.
  intros Hnn Hov.
  destruct (final_walk_ends graph START Hnn Hov START TARGET [])
    as (n & r & Hn).
  apply (main_with_returned graph START TARGET r).
  by eapply reconstruct_loop_enough.
Qed.

(** X17. With non-negative weights and every sum below the sentinel, for a
    target that is reachable and is a key of the graph or the start node,
    [main] ends its output with the shortest distance of the target and a
    path of the graph of that weight, joined by arrows. *)
Theorem main_prints_shortest_path graph START TARGET :
  nonneg_weights graph → below_sentinel graph START →
  is_key graph TARGET ∨ TARGET = START → reachable graph START TARGET →
  ∃ out p d,
    shortest graph START TARGET d ∧ path graph START p TARGET d ∧
    main_with graph START TARGET =
      (out ++ [""; "Shortest Path to " +:+ TARGET +:+ " (Distance: " +:+
                   pretty d +:+ "):";
               join_arrows p],
       Returns 0).
Proof.
  intros Hnn Hbs Ht Hr.
  pose proof (below_sentinel_no_overflow graph START Hbs) as Hov.
  destruct (reconstruct_reached graph START Hnn Hbs TARGET Ht Hr)
    as (p & d & Hp & Hd & Hlt & Hpath).
  rewrite main_with_unfold. cbv zeta. rewrite Hp.
  eexists _, p, d. split; [|split; [done|]].
  - split; [by eexists|]. intros p' d' Hp'.
    exact (final_le_path graph START Hnn Hov TARGET d p' d' Hd Hp').
  - destruct p as [|x l]; [by inversion Hpath; destruct p|].
    unfold distances_at. by rewrite Hd.
Qed.

(** X18. With non-negative weights and every sum below the sentinel, for a
    target other than the start node that is not both a key of the graph
    and reachable, [main] ends its output with the line that calls the
    target unreachable. *)
Theorem main_prints_unreachable graph START TARGET :
  nonneg_weights graph → below_sentinel graph START →
  TARGET ≠ START → ¬ (is_key graph TARGET ∧ reachable graph START TARGET) →
  ∃ out,
    main_with graph START TARGET =
      (out ++ [""; "Node " +:+ TARGET +:+ " is unreachable from " +:+
                   START +:+ "."],
       Returns 0).
Proof.
  intros Hnn Hbs Hne Hnot.
  assert (Hp : reconstruct_path (predecessors (final graph START)) START TARGET
               = Returns []).
  { apply reconstruct_no_entry; [done|].
    destruct (predecessors (final graph START) !! TARGET) as [x|] eqn:E; [|done].
    assert (Hs : is_Some (predecessors (final graph START) !! TARGET))
      by (by eexists).
    apply (pred_iff graph START Hnn Hbs) in Hs as (? & _ & ?). by destruct Hnot. }
  rewrite main_with_unfold. cbv zeta. rewrite Hp. by eexists.
Qed.

(** [main] on its own constants. *)
Example main_prints :
  main =
    ([ "--- Running Dijkstra's Algorithm from Node A ---";
       "";
       "Shortest Distances from A:";
       "  Node A: 0";
       "  Node B: 7";
       "  Node C: 9";
       "  Node D: 20";
       "  Node E: 20";
       "  Node F: 11";
       "";
       "Shortest Path to D (Distance: 20):";
       "A -> C -> D" ],
     Returns 0).
Proof. by vm_compute. Qed.

(** ** The further properties at concrete inputs *)

Lemma sink_start_without_edges :
  graph_find graph_sink "A" = None ∨ graph_find graph_sink "A" = Some [].
Proof. by right. Qed.

Lemma sample_predecessor_D :
  (dijkstra_shortest_path sample_graph "A").2 !! "D" = Some "C".
Proof. by vm_compute. Qed.

Lemma sink_unreachable_C : ¬ reachable graph_sink "A" "C".
Proof. intros (p & d & Hp). by apply graph_sink_paths in Hp. Qed.

Lemma neighbor_only_nonneg : nonneg_weights graph_neighbor_only.
Proof. nonneg_here. Qed.

Lemma neighbor_only_below_sentinel : below_sentinel graph_neighbor_only "A".
Proof. by apply small_weights_below_sentinel. Qed.

Lemma neighbor_only_not_key : ¬ is_key graph_neighbor_only "B".
Proof. by intros [? ?]. Qed.

Lemma neighbor_only_distinct : ("B" : string) ≠ "A".
Proof. done. Qed.

Lemma neighbor_only_reachable : reachable graph_neighbor_only "A" "B".
Proof.
  exists ["A"; "B"], 5.
  apply (path_snoc _ _ ["A"] "A" "B" 5 0); [constructor|edge_here|done..].
Qed.

Lemma returned_nonempty : (["S"; "T"] : list string) ≠ [].
Proof. done. Qed.

Lemma sample_second_extraction :
  pq_top (pq (Nat.iter 1 (step sample_graph) (init sample_graph "A")))
    = Some (7, "B").
Proof. by vm_compute. Qed.

Lemma sample_second_extraction_fresh :
  ((map_index
      (distances (Nat.iter 1 (step sample_graph) (init sample_graph "A")))
      "B").1 <? 7) = false.
Proof. by vm_compute. Qed.

Lemma sample_small_weights : small_weights sample_graph = true.
Proof. by vm_compute. Qed.

Lemma sample_distinct_Z : ("Z" : string) ≠ "A".
Proof. done. Qed.

Lemma sample_not_key_Z :
  ¬ (is_key sample_graph "Z" ∧ reachable sample_graph "A" "Z").
Proof. by intros [[? ?] _]. Qed.

Lemma dijkstra_start_without_edges_witness :
  (graph_find graph_sink "A" = None ∨ graph_find graph_sink "A" = Some []) ∧
  dijkstra_shortest_path graph_sink "A" =
    (<["A" := 0]> (init_distances graph_sink), ∅).
Proof.
  exact (conj sink_start_without_edges
    (dijkstra_start_without_edges graph_sink "A" sink_start_without_edges)).
Defined.

Lemma predecessor_entries_are_edges_witness :
  (dijkstra_shortest_path sample_graph "A").2 !! "D" = Some "C" ∧
  (∃ w, edge sample_graph "C" "D" w) ∧
  reachable sample_graph "A" "C" ∧ reachable sample_graph "A" "D" ∧
  is_Some ((dijkstra_shortest_path sample_graph "A").1 !! "C") ∧
  is_Some ((dijkstra_shortest_path sample_graph "A").1 !! "D").
Proof.
  exact (conj sample_predecessor_D
    (predecessor_entries_are_edges sample_graph "A" "D" "C" sample_predecessor_D)).
Defined.

Lemma unreachable_nodes_witness :
  ¬ reachable graph_sink "A" "C" ∧
  (dijkstra_shortest_path graph_sink "A").2 !! "C" = None ∧
  (is_key graph_sink "C" →
   (dijkstra_shortest_path graph_sink "A").1 !! "C" = Some INT_MAX) ∧
  (¬ is_key graph_sink "C" →
   (dijkstra_shortest_path graph_sink "A").1 !! "C" = None).
Proof.
  exact (conj sink_unreachable_C
    (unreachable_nodes graph_sink "A" "C" sink_unreachable_C)).
Defined.

Lemma extraction_is_shortest_witness :
  nonneg_weights sample_graph ∧ no_overflow sample_graph "A" ∧
  pq_top (pq (Nat.iter 1 (step sample_graph) (init sample_graph "A")))
    = Some (7, "B") ∧
  ((map_index
      (distances (Nat.iter 1 (step sample_graph) (init sample_graph "A")))
      "B").1 <? 7) = false ∧
  shortest sample_graph "A" "B" 7.
Proof.
  exact (conj sample_nonneg (conj sample_no_overflow
    (conj sample_second_extraction (conj sample_second_extraction_fresh
      (extraction_is_shortest sample_graph "A" 1 7 "B"
         sample_nonneg sample_no_overflow
         sample_second_extraction sample_second_extraction_fresh))))).
Defined.

Lemma sentinel_iff_unreachable_witness :
  nonneg_weights sample_graph ∧ below_sentinel sample_graph "A" ∧
  is_key sample_graph "D" ∧
  ((dijkstra_shortest_path sample_graph "A").1 !! "D" = Some INT_MAX ↔
   ¬ reachable sample_graph "A" "D").
Proof.
  exact (conj sample_nonneg (conj sample_below_sentinel (conj sample_key_D
    (sentinel_iff_unreachable sample_graph "A" "D"
       sample_nonneg sample_below_sentinel sample_key_D)))).
Defined.

Lemma predecessor_iff_reachable_key_witness :
  nonneg_weights sample_graph ∧ below_sentinel sample_graph "A" ∧
  (is_Some ((dijkstra_shortest_path sample_graph "A").2 !! "D") ↔
   is_key sample_graph "D" ∧ "D" ≠ "A" ∧ reachable sample_graph "A" "D").
Proof.
  exact (conj sample_nonneg (conj sample_below_sentinel
    (predecessor_iff_reachable_key sample_graph "A" "D"
       sample_nonneg sample_below_sentinel))).
Defined.

Lemma neighbor_only_node_gets_zero_witness :
  nonneg_weights graph_neighbor_only ∧ below_sentinel graph_neighbor_only "A" ∧
  ¬ is_key graph_neighbor_only "B" ∧ "B" ≠ "A" ∧
  reachable graph_neighbor_only "A" "B" ∧
  (dijkstra_shortest_path graph_neighbor_only "A").1 !! "B" = Some 0 ∧
  (dijkstra_shortest_path graph_neighbor_only "A").2 !! "B" = None ∧
  reconstruct_path (dijkstra_shortest_path graph_neighbor_only "A").2 "A" "B"
    = Returns [].
Proof.
  exact (conj neighbor_only_nonneg (conj neighbor_only_below_sentinel
    (conj neighbor_only_not_key (conj neighbor_only_distinct
      (conj neighbor_only_reachable
        (neighbor_only_node_gets_zero graph_neighbor_only "A" "B"
           neighbor_only_nonneg neighbor_only_below_sentinel
           neighbor_only_not_key neighbor_only_distinct
           neighbor_only_reachable)))))).
Defined.

Lemma reconstruct_empty_iff_witness :
  nonneg_weights sample_graph ∧ below_sentinel sample_graph "A" ∧
  (reconstruct_path (dijkstra_shortest_path sample_graph "A").2 "A" "Z"
     = Returns [] ↔
   "Z" ≠ "A" ∧ ¬ (is_key sample_graph "Z" ∧ reachable sample_graph "A" "Z")).
Proof.
  exact (conj sample_nonneg (conj sample_below_sentinel
    (reconstruct_empty_iff sample_graph "A" "Z"
       sample_nonneg sample_below_sentinel))).
Defined.

Lemma small_weights_correct_witness :
  small_weights sample_graph = true ∧
  (is_key sample_graph "D" ∨ "D" = "A") ∧ reachable sample_graph "A" "D" ∧
  ∃ p d,
    (dijkstra_shortest_path sample_graph "A").1 !! "D" = Some d ∧
    d < INT_MAX ∧ shortest sample_graph "A" "D" d ∧
    reconstruct_path (dijkstra_shortest_path sample_graph "A").2 "A" "D"
      = Returns p ∧
    path sample_graph "A" p "D" d.
Proof.
  exact (conj sample_small_weights (conj (or_introl sample_key_D)
    (conj sample_reachable_D
      (small_weights_correct sample_graph "A" "D" sample_small_weights
         (or_introl sample_key_D) sample_reachable_D)))).
Defined.

Lemma reconstruct_path_follows_witness :
  reconstruct_path chain_through_start "S" "T" = Returns ["S"; "T"] ∧
  ["S"; "T"] ≠ [] ∧
  head ["S"; "T"] = Some "S" ∧ last ["S"; "T"] = Some "T" ∧
  NoDup ["S"; "T"] ∧
  ∀ i a b, ["S"; "T"] !! i = Some a → ["S"; "T"] !! S i = Some b →
    chain_through_start !! b = Some a.
Proof.
  exact (conj walk_stops_at_start (conj returned_nonempty
    (reconstruct_path_follows chain_through_start "S" "T" ["S"; "T"]
       walk_stops_at_start returned_nonempty))).
Defined.

Lemma main_returns_zero_witness :
  nonneg_weights sample_graph ∧ no_overflow sample_graph "A" ∧
  (main_with sample_graph "A" "D").2 = Returns 0.
Proof.
  exact (conj sample_nonneg (conj sample_no_overflow
    (main_returns_zero sample_graph "A" "D" sample_nonneg sample_no_overflow))).
Defined.

Lemma main_prints_shortest_path_witness :
  nonneg_weights sample_graph ∧ below_sentinel sample_graph "A" ∧
  (is_key sample_graph "D" ∨ "D" = "A") ∧ reachable sample_graph "A" "D" ∧
  ∃ out p d,
    shortest sample_graph "A" "D" d ∧ path sample_graph "A" p "D" d ∧
    main_with sample_graph "A" "D" =
      (out ++ [""; "Shortest Path to " +:+ "D" +:+ " (Distance: " +:+
                   pretty d +:+ "):";
               join_arrows p],
       Returns 0).
Proof.
  exact (conj sample_nonneg (conj sample_below_sentinel
    (conj (or_introl sample_key_D) (conj sample_reachable_D
      (main_prints_shortest_path sample_graph "A" "D"
         sample_nonneg sample_below_sentinel
         (or_introl sample_key_D) sample_reachable_D))))).
Defined.

Lemma main_prints_unreachable_witness :
  nonneg_weights sample_graph ∧ below_sentinel sample_graph "A" ∧
  "Z" ≠ "A" ∧ ¬ (is_key sample_graph "Z" ∧ reachable sample_graph "A" "Z") ∧
  ∃ out,
    main_with sample_graph "A" "Z" =
      (out ++ [""; "Node " +:+ "Z" +:+ " is unreachable from " +:+ "A" +:+ "."],
       Returns 0).
Proof.
  exact (conj sample_nonneg (conj sample_below_sentinel
    (conj sample_distinct_Z (conj sample_not_key_Z
      (main_prints_unreachable sample_graph "A" "Z"
         sample_nonneg sample_below_sentinel
         sample_distinct_Z sample_not_key_Z))))).
Defined.
